(** * CommandLineParser.h: a shallow embedding and its properties

    The header defines two classes.  [CommandLineOption] is one declared
    switch (names, description, default, flags, and the mutable matched
    state); [CommandLineParser] owns a [std::deque] of options, scans
    [argv] against them, enforces required options, and prints the help
    and version screens.

    Conventions of the embedding:
    - [std::string] is [string]; a [char] is an [ascii];
    - [size_t] is a [Z] in [0, 2^64) with the wrap-around written out
      ([size_wrap]); [int] is a [Z] (the loop counter never leaves the
      range of [int], see [scan_args]);
    - the deque of options is a [list], mutated in place by the loops,
      which here thread the updated list;
    - [std::cout] and [std::cerr] are the two fields of a [World];
    - [exit], undefined behaviour, an uncaught exception and a loop that
      does not stop are the constructors of [Res]. *)

From Stdlib Require Import ZArith Lia Bool List String Ascii.
From Equations Require Import Equations.
Import ListNotations.

#[local] Open Scope string_scope.
#[local] Open Scope Z_scope.

(** ** Strings: the part of [std::string] and of the streams that is used *)

Module Str.

Definition len (s : string) : Z := Z.of_nat (String.length s).

Definition empty (s : string) : bool :=
  match s with EmptyString => true | String _ _ => false end.

Fixpoint spaces (n : nat) : string :=
  match n with O => "" | S k => String " " (spaces k) end.

Definition nl : string := String (ascii_of_nat 10) "".

(** [std::isspace] in the classic locale: space, and \t \n \v \f \r. *)
Definition isspace (c : ascii) : bool :=
  let n := nat_of_ascii c in
  (Nat.eqb n 32 || (Nat.leb 9 n && Nat.leb n 13))%bool.

(** What [is >> str] does on a fresh stream over [s]: skip the leading
    white space, then take characters up to the next white space (or the
    end).  [str] is erased first, so it is empty when nothing is left. *)
Fixpoint skipws (s : string) : string :=
  match s with
  | EmptyString => EmptyString
  | String c s' => if isspace c then skipws s' else s
  end.

Fixpoint take_word (s : string) : string :=
  match s with
  | EmptyString => EmptyString
  | String c s' => if isspace c then EmptyString else String c (take_word s')
  end.

Definition extract (s : string) : string := take_word (skipws s).

(** [size_t] and [std::string::npos]. *)
Definition size_mod : Z := 2 ^ 64.
Definition size_wrap (z : Z) : Z := z mod size_mod.
Definition npos : Z := size_mod - 1.

(** [s.find_last_of(c, pos)]: the largest index [<= pos] that holds [c],
    [npos] when there is none.  [i] is the index of the head of [s] and
    [last] the best index met so far. *)
Fixpoint find_last_from (c : ascii) (s : string) (i pos last : Z) : Z :=
  match s with
  | EmptyString => last
  | String a s' =>
      if ((i <=? pos) && Ascii.eqb a c)%bool
      then find_last_from c s' (i + 1) pos i
      else find_last_from c s' (i + 1) pos last
  end.

Definition find_last_of (s : string) (c : ascii) (pos : Z) : Z :=
  find_last_from c s 0 pos npos.

(** [s.substr(pos, n)]: throws [std::out_of_range] ([None]) when
    [pos > s.size()], otherwise the [min n (size - pos)] characters
    from [pos]. *)
Definition substr (s : string) (pos n : Z) : option string :=
  if pos >? len s then None
  else Some (String.substring (Z.to_nat pos)
                              (Z.to_nat (Z.min n (len s - pos))) s).

(** [std::getline(stream, item, delim)] on a stream whose unread part
    is [s]: fails ([None]) when nothing is left, otherwise gives the
    characters before the first [delim] and the unread part after it. *)
Fixpoint until (delim : ascii) (s : string) : string * string :=
  match s with
  | EmptyString => (EmptyString, EmptyString)
  | String c s' =>
      if Ascii.eqb c delim then (EmptyString, s')
      else let (item, rest) := until delim s' in (String c item, rest)
  end.

Definition getline (delim : ascii) (s : string) : option (string * string) :=
  match s with
  | EmptyString => None
  | String _ _ => Some (until delim s)
  end.

(** The conversion of a [size_t] to the [int] that [std::setw] takes,
    and [os << std::left << std::setw(w) << s] with fill character
    space. *)
Definition to_int (z : Z) : Z :=
  let r := z mod 2 ^ 32 in if r <? 2 ^ 31 then r else r - 2 ^ 32.

Definition put_left (w : Z) (s : string) : string :=
  s ++ spaces (Z.to_nat (to_int w - len s)).

End Str.

(** ** Outcomes of a member function that may end the process *)

Record World : Type := mkWorld { cout : string; cerr : string }.

Definition to_cout (s : string) (w : World) : World :=
  mkWorld (cout w ++ s) (cerr w).

Definition to_cerr (s : string) (w : World) : World :=
  mkWorld (cout w) (cerr w ++ s).

Inductive Res (A : Type) : Type :=
| Ok (a : A)                      (* ran to its end *)
| Exit (status : Z) (w : World)   (* called exit(status) *)
| Fault                           (* undefined behaviour *)
| Raised                          (* uncaught std::out_of_range *)
| OutOfFuel.                      (* still looping when the fuel ran out *)

Arguments Ok {A} a.
Arguments Exit {A} status w.
Arguments Fault {A}.
Arguments Raised {A}.
Arguments OutOfFuel {A}.

Definition bind {A B : Type} (r : Res A) (k : A -> Res B) : Res B :=
  match r with
  | Ok a => k a
  | Exit st w => Exit st w
  | Fault => Fault
  | Raised => Raised
  | OutOfFuel => OutOfFuel
  end.

Notation "x <- r ;; k" := (bind r (fun x => k))
  (at level 61, r at next level, right associativity).
Notation "' p <- r ;; k" := (bind r (fun p => k))
  (at level 61, p pattern, r at next level, right associativity).

(** ** class CommandLineOption *)

Module CLO.

Record CommandLineOption : Type := mkCLO {
  m_arg : string;
  m_argAlt : string;
  m_desc : string;
  m_value : string;
  m_default : string;
  m_set : bool;
  m_required : bool;
  m_hasValue : bool;
  m_isSeparator : bool;
  m_addSpace : Z
}.

Inductive HasValue := HasValue_Yes | HasValue_No.
Inductive Required := Required_Yes | Required_No.
Inductive Separator := Separator_Yes | Separator_No.

Definition hv_yes (h : HasValue) : bool :=
  match h with HasValue_Yes => true | HasValue_No => false end.
Definition rq_yes (r : Required) : bool :=
  match r with Required_Yes => true | Required_No => false end.
Definition sp_yes (s : Separator) : bool :=
  match s with Separator_Yes => true | Separator_No => false end.

(** The seven-argument constructor; [m_value], [m_set] and [m_addSpace]
    take their default member initialisers. *)
Definition CLO_full (arg argAlt desc defaultValue : string)
    (hasValue : HasValue) (required : Required) (separator : Separator)
  : CommandLineOption :=
  mkCLO arg argAlt desc "" defaultValue false
        (rq_yes required) (hv_yes hasValue) (sp_yes separator) 0.

(** [CommandLineOption(arg, argAlt, desc, defaultValue, required)]. *)
Definition CLO_default (arg argAlt desc defaultValue : string)
    (required : Required) : CommandLineOption :=
  CLO_full arg argAlt desc defaultValue HasValue_Yes required Separator_No.

(** [CommandLineOption(arg, argAlt, desc, hasValue, required)]. *)
Definition CLO_plain (arg argAlt desc : string)
    (hasValue : HasValue) (required : Required) : CommandLineOption :=
  CLO_full arg argAlt desc "" hasValue required Separator_No.

Definition with_set (b : bool) (o : CommandLineOption) : CommandLineOption :=
  mkCLO (m_arg o) (m_argAlt o) (m_desc o) (m_value o) (m_default o) b
        (m_required o) (m_hasValue o) (m_isSeparator o) (m_addSpace o).

(** [bool check(const std::string& arg)]: the result and the object
    after the call. *)
Definition check (arg : string) (o : CommandLineOption)
  : bool * CommandLineOption :=
  if m_set o then (false, o)
  else
    let argAltArg := Str.extract (m_argAlt o) in
    let o1 := if negb (Str.empty (m_arg o))
              then with_set (String.eqb (m_arg o) arg) o else o in
    let o2 := if (negb (m_set o1) && negb (Str.empty argAltArg))%bool
              then with_set (String.eqb argAltArg arg) o1 else o1 in
    (m_set o2, o2).

Definition isSet (o : CommandLineOption) : bool :=
  (m_set o || negb (Str.empty (m_default o)))%bool.

Definition setValue (value : string) (o : CommandLineOption)
  : CommandLineOption :=
  mkCLO (m_arg o) (m_argAlt o) (m_desc o) value (m_default o) (m_set o)
        (m_required o) (m_hasValue o) (m_isSeparator o) (m_addSpace o).

Definition getValue (o : CommandLineOption) : string :=
  if m_set o then m_value o else m_default o.

Definition isRequired (o : CommandLineOption) : bool := m_required o.
Definition hasValue (o : CommandLineOption) : bool := m_hasValue o.

Definition setSpaceAdd (spaceAdd : Z) (o : CommandLineOption)
  : CommandLineOption :=
  mkCLO (m_arg o) (m_argAlt o) (m_desc o) (m_value o) (m_default o) (m_set o)
        (m_required o) (m_hasValue o) (m_isSeparator o) spaceAdd.

Definition setRequired (required : bool) (o : CommandLineOption)
  : CommandLineOption :=
  mkCLO (m_arg o) (m_argAlt o) (m_desc o) (m_value o) (m_default o) (m_set o)
        required (m_hasValue o) (m_isSeparator o) (m_addSpace o).

Definition getArg (o : CommandLineOption) : string := m_arg o.
Definition getArgAlt (o : CommandLineOption) : string := m_argAlt o.

Definition setDefault (defaultValue : string) (o : CommandLineOption)
  : CommandLineOption :=
  mkCLO (m_arg o) (m_argAlt o) (m_desc o) (m_value o) defaultValue (m_set o)
        (m_required o) (m_hasValue o) (m_isSeparator o) (m_addSpace o).

Definition getDefault (o : CommandLineOption) : string := m_default o.

(** [operator==]: the address test only shortcuts the comparison of an
    object with itself, which the three fields decide the same way. *)
Definition CLO_eqb (a b : CommandLineOption) : bool :=
  (String.eqb (m_arg a) (m_arg b) && String.eqb (m_argAlt a) (m_argAlt b)
   && String.eqb (m_desc a) (m_desc b))%bool.

Definition getArgsLength (o : CommandLineOption) : Z :=
  if m_isSeparator o then 0
  else Str.len (m_arg o ++ ", " ++ m_argAlt o).

(** [std::ostream& operator<<(std::ostream&, const CommandLineOption&)].
    The stream is the text written so far.  [fuel] bounds the number of
    turns of the wrapping loop. *)
Definition maxLineLen : Z := 80.
Definition spaceArgDesc : Z := 4.

Definition full_desc (clo : CommandLineOption) : string :=
  let desc := m_desc clo in
  let desc := if m_required clo then desc ++ " (required)" else desc in
  if negb (Str.empty (m_default clo))
  then (desc ++ " DEFAULT: ") ++ m_default clo else desc.

Fixpoint wrap_loop (fuel : nat) (addSpace : Z) (desc os : string)
  : Res (string * string) :=
  if Str.size_wrap (Str.len desc + spaceArgDesc + addSpace) >? maxLineLen then
    match fuel with
    | O => OutOfFuel
    | S fuel' =>
        let spacePos :=
          Str.find_last_of desc " "
            (Str.size_wrap (maxLineLen - Str.size_wrap (spaceArgDesc + addSpace))) in
        match Str.substr desc 0 spacePos,
              Str.substr desc (Str.size_wrap (spacePos + 1)) Str.npos with
        | Some line, Some rest =>
            let os := os ++ line ++ Str.nl in
            let os := os ++ Str.put_left (Str.size_wrap (spaceArgDesc + addSpace)) "" in
            wrap_loop fuel' addSpace rest os
        | _, _ => Raised
        end
    end
  else Ok (desc, os).

Definition print (fuel : nat) (clo : CommandLineOption) (os : string)
  : Res string :=
  if m_isSeparator clo then Ok (os ++ Str.nl)
  else
    let argStr := m_arg clo ++ ", " ++ m_argAlt clo in
    let os := os ++ Str.put_left (m_addSpace clo) argStr in
    let os := os ++ Str.put_left spaceArgDesc "" in
    '(desc, os) <- wrap_loop fuel (m_addSpace clo) (full_desc clo) os ;;
    Ok (os ++ desc ++ Str.nl).

End CLO.

(** ** class CommandLineParser *)

Module Parser.

Import CLO.

Record CommandLineParser : Type := mkParser {
  m_options : list CommandLineOption;
  m_argc : Z;
  m_argv : list string;
  m_programName : string;
  m_programVersion : string;
  m_helpOpt : CommandLineOption;
  m_verOpt : CommandLineOption
}.

(** The constructor, with the default member initialisers of
    [m_helpOpt] and [m_verOpt]. *)
Definition create (argc : Z) (argv : list string)
    (programName programVersion : string) : CommandLineParser :=
  mkParser [] argc argv programName programVersion
    (CLO_plain "-h" "--help" "Displays Help" HasValue_No Required_No)
    (CLO_plain "-v" "--version" "Print the version" HasValue_No Required_No).

Definition with_options (opts : list CommandLineOption)
    (p : CommandLineParser) : CommandLineParser :=
  mkParser opts (m_argc p) (m_argv p) (m_programName p)
           (m_programVersion p) (m_helpOpt p) (m_verOpt p).

Definition addVersionOption (p : CommandLineParser) : CommandLineParser :=
  with_options (m_options p ++ [m_verOpt p]) p.

Definition addVersionOption_with (versionOpt : CommandLineOption)
    (p : CommandLineParser) : CommandLineParser :=
  addVersionOption
    (mkParser (m_options p) (m_argc p) (m_argv p) (m_programName p)
              (m_programVersion p) (m_helpOpt p) versionOpt).

Definition addOption (opt : CommandLineOption) (p : CommandLineParser)
  : CommandLineParser :=
  with_options (m_options p ++ [opt]) p.

Definition separator : CommandLineOption :=
  CLO_full "" "" "" "" HasValue_No Required_No Separator_Yes.

Definition addSeparator (p : CommandLineParser) : CommandLineParser :=
  with_options (m_options p ++ [separator]) p.

Definition addHelpOption (p : CommandLineParser) : CommandLineParser :=
  with_options (m_helpOpt p :: m_options p) p.

(** [std::find(m_options.begin(), m_options.end(), opt)]; [None] is
    [m_options.end()]. *)
Definition find_option (opts : list CommandLineOption)
    (opt : CommandLineOption) : option CommandLineOption :=
  List.find (fun o => CLO_eqb o opt) opts.

Definition isSet (p : CommandLineParser) (opt : CommandLineOption) : bool :=
  match find_option (m_options p) opt with
  | None => false
  | Some result => CLO.isSet result
  end.

Definition getValue (p : CommandLineParser) (opt : CommandLineOption)
  : string :=
  match find_option (m_options p) opt with
  | None => ""
  | Some result => CLO.getValue result
  end.

Definition inspect {A : Type} (a : A) : {b : A | a = b} := exist _ a eq_refl.

(** [splitString]: the [while (std::getline(stream, item, delim))] loop
    over the unread part of the stream. *)
Equations getline_loop (delim : ascii) (stream : string)
    (split : list string) : list string
  by wf (String.length stream) lt :=
  getline_loop delim stream split with inspect (Str.getline delim stream) := {
    | exist _ None _ => split
    | exist _ (Some (item, rest)) _ => getline_loop delim rest (split ++ [item])
  }.
Next Obligation.
  clear getline_loop.
  destruct stream as [|c s]; [discriminate|].
  cbn in e. injection e as e. revert c item rest e.
  induction s as [|d s IH]; intros c item rest e; cbn in e.
  - destruct (Ascii.eqb c delim); injection e as <- <-; cbn; lia.
  - destruct (Ascii.eqb c delim).
    + injection e as <- <-; cbn; lia.
    + destruct (Ascii.eqb d delim) eqn:E.
      * injection e as <- <-. cbn. lia.
      * specialize (IH d). cbn in IH. rewrite E in IH.
        destruct (Str.until delim s) as [it rs].
        injection e as <- <-. specialize (IH _ _ eq_refl). cbn in *. lia.
Qed.

Definition splitString (s delimiter : string) : list string :=
  let delim := match delimiter with
               | EmptyString => ","%char
               | String c _ => c
               end in
  getline_loop delim s [].

Definition getValueList (p : CommandLineParser) (opt : CommandLineOption)
    (delim : string) : list string :=
  match find_option (m_options p) opt with
  | None => []
  | Some result => splitString (CLO.getValue result) delim
  end.

(** *** parse *)

(** [m_argv[i]]: reading outside the vector is undefined ([None]). *)
Definition argv_at (p : CommandLineParser) (i : Z) : option string :=
  if i <? 0 then None else nth_error (m_argv p) (Z.to_nat i).

Definition starved_msg (option : CommandLineOption) : string :=
  "ERROR: Option (" ++ getArg option ++ " / " ++ getArgAlt option
  ++ ") requires a value, but none was provided, exiting ..." ++ Str.nl.

Definition missing_msg (option : CommandLineOption) : string :=
  "ERROR: Required option (" ++ getArg option ++ " / " ++ getArgAlt option
  ++ ") not set, exiting ..." ++ Str.nl.

Section Scan.

Variable p : CommandLineParser.
Variable w : World.

(** The range-for over [m_options] for one token [str], from the
    option at the head of [opts] on: the options as the loop leaves
    them, the counter [i] and [anyMatch].  [str] was read before the
    loop and is not read again when [i] moves. *)
Fixpoint scan_options (str : string) (opts : list CommandLineOption)
    (i : Z) (anyMatch : bool)
  : Res (list CommandLineOption * (Z * bool)) :=
  match opts with
  | [] => Ok ([], (i, anyMatch))
  | option :: rest =>
      let (hit, option) := check str option in
      if hit then
        if hasValue option then
          let i := i + 1 in
          if i >=? m_argc p
          then Exit (-1) (to_cerr (starved_msg option) w)
          else
            match argv_at p i with
            | None => Fault
            | Some v =>
                '(rest, r) <- scan_options str rest i true ;;
                Ok (setValue v option :: rest, r)
            end
        else
          '(rest, r) <- scan_options str rest i true ;;
          Ok (option :: rest, r)
      else
        '(rest, r) <- scan_options str rest i anyMatch ;;
        Ok (option :: rest, r)
  end.

(** [for (int i = 1; i < m_argc; i++)], entered with the counter at
    [i].  Each turn moves [i] up by at least one and [i] never passes
    [m_argc], so the counter stays an [int] and [m_argc] turns are
    enough ([fuel]). *)
Fixpoint scan_args (fuel : nat) (opts : list CommandLineOption)
    (i : Z) (anyMatch : bool) : Res (list CommandLineOption * bool) :=
  if i <? m_argc p then
    match fuel with
    | O => OutOfFuel
    | S fuel' =>
        match argv_at p i with
        | None => Fault
        | Some str =>
            '(opts, (i, anyMatch)) <- scan_options str opts i anyMatch ;;
            scan_args fuel' opts (i + 1) anyMatch
        end
    end
  else Ok (opts, anyMatch).

Definition scan : Res (list CommandLineOption * bool) :=
  scan_args (Z.to_nat (m_argc p)) (m_options p) 1 false.

End Scan.

(** The loop over [m_options] that reports the required options that
    are not set. *)
Fixpoint report_missing (opts : list CommandLineOption)
    (allRequiredSet : bool) (w : World) : bool * World :=
  match opts with
  | [] => (allRequiredSet, w)
  | option :: rest =>
      if (isRequired option && negb (CLO.isSet option))%bool
      then report_missing rest false (to_cerr (missing_msg option) w)
      else report_missing rest allRequiredSet w
  end.

(** [std::max_element] with the comparison on [getArgsLength]: the first
    of the largest elements, [None] ([end()]) on an empty range. *)
Fixpoint max_from (largest : CommandLineOption)
    (rest : list CommandLineOption) : CommandLineOption :=
  match rest with
  | [] => largest
  | o :: rest' =>
      if getArgsLength largest <? getArgsLength o
      then max_from o rest' else max_from largest rest'
  end.

Definition max_element (opts : list CommandLineOption)
  : option CommandLineOption :=
  match opts with
  | [] => None
  | o :: rest => Some (max_from o rest)
  end.

(** [updateAddSpaces]: [end()] is dereferenced when there is no option. *)
Definition updateAddSpaces (opts : list CommandLineOption)
  : Res (list CommandLineOption) :=
  match max_element opts with
  | None => Fault
  | Some m => Ok (map (setSpaceAdd (getArgsLength m)) opts)
  end.

Fixpoint print_options (fuel : nat) (opts : list CommandLineOption)
    (os : string) : Res string :=
  match opts with
  | [] => Ok os
  | option :: rest =>
      os <- CLO.print fuel option os ;;
      print_options fuel rest os
  end.

Section Help.

(** [basename] of <libgen.h> (the branch for targets other than
    Windows), applied to [m_argv[0]], a null pointer when the vector
    is empty. *)
Variable basename : option string -> string.

Definition printHelp (fuel : nat) (p : CommandLineParser) (w : World)
  : Res (CommandLineParser * World) :=
  let pFileName := basename (argv_at p 0) in
  opts <- updateAddSpaces (m_options p) ;;
  let os := cout w ++ "Usage: " ++ pFileName ++ " option" ++ Str.nl ++ Str.nl in
  os <- print_options fuel opts os ;;
  Ok (with_options opts p, mkWorld os (cerr w)).

Definition printVersion (p : CommandLineParser) (w : World) : World :=
  let w := if negb (Str.empty (m_programName p))
           then to_cout (m_programName p) w else w in
  let w := if negb (Str.empty (m_programVersion p))
           then
             let w := if negb (Str.empty (m_programName p))
                      then to_cout " - " w else w in
             to_cout (m_programVersion p) w
           else w in
  to_cout Str.nl w.

(** [parse(requireMatch)]: [Ok] is a normal return, with the parser
    and the streams as they are then.  [fuel] bounds the turns of the
    wrapping loop of each entry of the help screen. *)
Definition parse (fuel : nat) (requireMatch : bool)
    (p : CommandLineParser) (w : World)
  : Res (CommandLineParser * World) :=
  '(opts, anyMatch) <- scan p w ;;
  let p := with_options opts p in
  if (isSet p (m_helpOpt p) || (negb anyMatch && requireMatch))%bool then
    '(_, w) <- printHelp fuel p w ;;
    Exit 0 w
  else if isSet p (m_verOpt p) then
    Exit 0 (printVersion p w)
  else
    let (allRequiredSet, w) := report_missing (m_options p) true w in
    if negb allRequiredSet then Exit (-1) w
    else Ok (p, w).

End Help.

End Parser.

Import CLO.
Import Parser.

(** * The vocabulary of the statements *)

(** ** One option *)

(** The comparison that [check] makes when the option is not set yet. *)
Definition name_match (tok : string) (o : CommandLineOption) : bool :=
  ((negb (Str.empty (m_arg o)) && String.eqb (m_arg o) tok)
   || (negb (Str.empty (Str.extract (m_argAlt o)))
       && String.eqb (Str.extract (m_argAlt o)) tok))%bool.

Definition matches (tok : string) (o : CommandLineOption) : bool :=
  (negb (m_set o) && name_match tok o)%bool.

(** The first white-space-delimited token of a field, said without the
    stream: [s] is white space, then [t], then the end or a white-space
    character; [t] is not empty and holds no white space. *)
Fixpoint all_chars (P : ascii -> bool) (s : string) : bool :=
  match s with
  | EmptyString => true
  | String c s' => (P c && all_chars P s')%bool
  end.

Definition is_first_token (s t : string) : Prop :=
  exists pre post,
    s = pre ++ t ++ post /\
    all_chars Str.isspace pre = true /\
    t <> "" /\
    all_chars (fun c => negb (Str.isspace c)) t = true /\
    (post = "" \/ exists c post', post = String c post' /\ Str.isspace c = true).

(** A sequence of calls on one option object: what the scan does to an
    option is a [check] per token, each followed by a [setValue] when
    it succeeds on a value-bearing option. *)
Inductive call : Type :=
| Check (tok : string)
| SetValue (value : string).

Fixpoint run (cs : list call) (o : CommandLineOption)
  : list bool * CommandLineOption :=
  match cs with
  | [] => ([], o)
  | Check tok :: cs' =>
      let (b, o1) := check tok o in
      let (bs, o2) := run cs' o1 in (b :: bs, o2)
  | SetValue v :: cs' => run cs' (setValue v o)
  end.

(** The value an option object holds after a sequence of calls: that of
    the last [setValue]. *)
Fixpoint captured (cs : list call) (v0 : string) : string :=
  match cs with
  | [] => v0
  | Check _ :: cs' => captured cs' v0
  | SetValue v :: cs' => captured cs' v
  end.

(** The calls that a scan makes on one option object while it reads the
    flag tokens [toks]: a [check] for each token, with or without a
    [setValue] after it. *)
Inductive calls_for : list string -> list call -> Prop :=
| calls_none : calls_for [] []
| calls_check toks cs tok :
    calls_for toks cs -> calls_for (toks ++ [tok]) (cs ++ [Check tok])
| calls_value toks cs tok v :
    calls_for toks cs ->
    calls_for (toks ++ [tok]) (cs ++ [Check tok; SetValue v]).

(** ** Queries *)

(** Declaration equality, as [operator==] decides it. *)
Definition same_decl (a b : CommandLineOption) : Prop :=
  m_arg a = m_arg b /\ m_argAlt a = m_argAlt b /\ m_desc a = m_desc b.

(** Whether a string holds a character, and whether it ends with it. *)
Fixpoint contains (c : ascii) (s : string) : bool :=
  match s with
  | EmptyString => false
  | String a s' => (Ascii.eqb a c || contains c s')%bool
  end.

Fixpoint ends_with (c : ascii) (s : string) : bool :=
  match s with
  | EmptyString => false
  | String a EmptyString => Ascii.eqb a c
  | String _ s' => ends_with c s'
  end.

(** The items put back together with [c] between them. *)
Fixpoint join (c : ascii) (items : list string) : string :=
  match items with
  | [] => ""
  | [x] => x
  | x :: rest => x ++ String c (join c rest)
  end.

(** The character [splitString] splits on. *)
Definition delim_char (delimiter : string) : ascii :=
  match delimiter with
  | EmptyString => ","%char
  | String c _ => c
  end.

(** ** The scan *)

(** The number of value-bearing options of [opts] that accept [str]:
    each of them moves the counter by one. *)
Fixpoint value_hits (str : string) (opts : list CommandLineOption) : Z :=
  match opts with
  | [] => 0
  | o :: rest =>
      (if (fst (check str o) && hasValue o)%bool then 1 else 0)
      + value_hits str rest
  end.

(** One option's turn on the token [str], the counter being [k] when
    the turn starts: [o] becomes [o']. *)
Inductive turn (p : CommandLineParser) (str : string) (k : Z)
    (o : CommandLineOption) : CommandLineOption -> Prop :=
| turn_refused :
    fst (check str o) = false -> turn p str k o o
| turn_flag :
    fst (check str o) = true -> hasValue o = false ->
    turn p str k o (with_set true o)
| turn_value v :
    fst (check str o) = true -> hasValue o = true ->
    k + 1 < m_argc p -> argv_at p (k + 1) = Some v ->
    turn p str k o (setValue v (with_set true o)).

(** The turns of all the options of a list, in order. *)
Inductive turns (p : CommandLineParser) (str : string)
  : Z -> list CommandLineOption -> list CommandLineOption -> Prop :=
| turns_nil k : turns p str k [] []
| turns_cons k o o' rest rest' :
    turn p str k o o' ->
    turns p str (k + value_hits str [o]) rest rest' ->
    turns p str k (o :: rest) (o' :: rest').

(** The states in which the outer loop tests [i < m_argc]: counter,
    options and [anyMatch]. *)
Inductive loop_head (p : CommandLineParser) (w : World)
  : Z -> list CommandLineOption -> bool -> Prop :=
| head_first : loop_head p w 1 (m_options p) false
| head_next i opts any str opts' i' any' :
    loop_head p w i opts any ->
    i < m_argc p ->
    argv_at p i = Some str ->
    scan_options p w str opts i any = Ok (opts', (i', any')) ->
    loop_head p w (i' + 1) opts' any'.


(** The options that the validation loop reports, and the text of a
    list of lines. *)
Definition is_missing (o : CommandLineOption) : bool :=
  (isRequired o && negb (CLO.isSet o))%bool.

Fixpoint lines (l : list string) : string :=
  match l with
  | [] => ""
  | x :: rest => x ++ lines rest
  end.

(** [x] put in front of position [n] of a list. *)
Definition insert_at {A : Type} (n : nat) (x : A) (l : list A) : list A :=
  (firstn n l ++ x :: skipn n l)%list.

(** ** A description without a blank *)

(** An option whose description is one unbroken word of 95 characters. *)
Definition unbroken : string :=
  "https://example.org/docs/command-line-parser/reference/options/output-file-format.html#encoding".

Definition url_option : CommandLineOption :=
  CLO_plain "-u" "--url" unbroken HasValue_No Required_No.

(** ** The version banner *)

(** The text [printVersion] writes: the name, the version, and " - "
    between them when there are both. *)
Definition banner (p : CommandLineParser) : string :=
  m_programName p
  ++ (if (negb (Str.empty (m_programName p))
          && negb (Str.empty (m_programVersion p)))%bool
      then " - " else "")
  ++ m_programVersion p ++ Str.nl.

(** ** Wrapped descriptions *)

(** The text of the lines [ls] as the wrapping loop writes them: each
    followed by a line end and the indentation of the next. *)
Fixpoint wrapped (indent : string) (ls : list string) : string :=
  match ls with
  | [] => ""
  | l :: rest => l ++ Str.nl ++ indent ++ wrapped indent rest
  end.

(** Every [S b] consecutive characters of [s] hold a blank: no word of
    [s] is longer than [b]. *)
Definition no_long_word (b : nat) (s : string) : Prop :=
  forall pre wd post,
    s = pre ++ wd ++ post -> String.length wd = S b ->
    contains " " wd = true.

(** A test for [no_long_word]: a blank among the first [n] characters of
    every suffix that has [n] characters. *)
Fixpoint blank_within (n : nat) (s : string) : bool :=
  match n, s with
  | O, _ => false
  | S _, EmptyString => true
  | S n', String a s' => (Ascii.eqb a " " || blank_within n' s')%bool
  end.

Fixpoint windows_ok (n : nat) (s : string) : bool :=
  (blank_within n s
   && match s with
      | EmptyString => true
      | String _ s' => windows_ok n s'
      end)%bool.

(** * Properties *)

(** ** Strings *)

Lemma empty_true_iff (s : string) : Str.empty s = true <-> s = "".
Proof. destruct s; cbn; split; congruence. Qed.

Lemma empty_false_iff (s : string) : Str.empty s = false <-> s <> "".
Proof. destruct s; cbn; split; congruence. Qed.

Lemma append_empty_r (s : string) : s ++ "" = s.
Proof. induction s as [|c s IH]; cbn; [reflexivity | now rewrite IH]. Qed.

Lemma append_assoc (a b c : string) : (a ++ b) ++ c = a ++ b ++ c.
Proof. induction a as [|x a IH]; cbn; [reflexivity | now rewrite IH]. Qed.

Lemma substring_all (s : string) :
  String.substring 0 (String.length s) s = s.
Proof. induction s as [|c s IH]; cbn; [reflexivity | now rewrite IH]. Qed.

Lemma to_cerr_empty (w : World) : to_cerr "" w = w.
Proof. destruct w; unfold to_cerr; cbn. now rewrite append_empty_r. Qed.

Lemma to_cerr_app (a b : string) (w : World) :
  to_cerr b (to_cerr a w) = to_cerr (a ++ b) w.
Proof. unfold to_cerr; cbn. now rewrite append_assoc. Qed.

(** ** [check], [isSet], [getValue] on one option *)

Lemma with_set_same (o : CommandLineOption) : with_set (m_set o) o = o.
Proof. now destruct o. Qed.

Lemma check_when_set (tok : string) (o : CommandLineOption) :
  m_set o = true -> check tok o = (false, o).
Proof. intros H. unfold check. now rewrite H. Qed.

Lemma check_eq (tok : string) (o : CommandLineOption) :
  check tok o = (matches tok o, if matches tok o then with_set true o else o).
Proof.
  destruct o as [a alt d v df s r h sep sp].
  unfold check, matches, name_match; cbn -[Str.extract].
  destruct s; [reflexivity|].
  destruct (Str.empty a), (String.eqb a tok), (Str.empty (Str.extract alt)),
    (String.eqb (Str.extract alt) tok); reflexivity.
Qed.

Lemma check_fst (tok : string) (o : CommandLineOption) :
  fst (check tok o) = matches tok o.
Proof. now rewrite check_eq. Qed.

Lemma check_snd_set (tok : string) (o : CommandLineOption) :
  m_set (snd (check tok o)) = (m_set o || fst (check tok o))%bool.
Proof.
  rewrite check_eq. cbn. unfold matches.
  destruct (m_set o) eqn:Hs; cbn; [assumption|].
  destruct (name_match tok o); cbn; [reflexivity | assumption].
Qed.

Lemma take_word_token (t post : string) :
  all_chars (fun c => negb (Str.isspace c)) t = true ->
  (post = "" \/ exists c post', post = String c post' /\ Str.isspace c = true) ->
  Str.take_word (t ++ post) = t.
Proof.
  intros Ht Hp. induction t as [|c t IH]; cbn in *.
  - destruct Hp as [-> | (c & post' & -> & Hc)]; cbn; [reflexivity|].
    now rewrite Hc.
  - apply andb_true_iff in Ht as [Hc Ht]. apply negb_true_iff in Hc.
    rewrite Hc. now rewrite IH.
Qed.

Lemma take_word_split (s : string) :
  exists post,
    s = Str.take_word s ++ post /\
    all_chars (fun c => negb (Str.isspace c)) (Str.take_word s) = true /\
    (post = "" \/ exists c post', post = String c post' /\ Str.isspace c = true).
Proof.
  induction s as [|c s (post & Hs & Hw & Hp)]; cbn.
  - exists "". auto.
  - destruct (Str.isspace c) eqn:Hc.
    + exists (String c s). cbn. repeat split; eauto.
    + exists post. cbn. rewrite Hc, Hw. cbn. rewrite <- Hs. auto.
Qed.

Lemma extract_first_token (s t : string) :
  is_first_token s t <-> Str.extract s = t /\ t <> "".
Proof.
  unfold Str.extract. split.
  - intros (pre & post & -> & Hpre & Hne & Ht & Hp). split; [|assumption].
    induction pre as [|c pre IH]; cbn in *.
    + destruct t as [|c t]; [congruence|]. cbn in *.
      apply andb_true_iff in Ht as [Hc Ht]. apply negb_true_iff in Hc.
      rewrite Hc. cbn. rewrite Hc. f_equal.
      now apply take_word_token.
    + apply andb_true_iff in Hpre as [Hc Hpre]. rewrite Hc. now apply IH.
  - intros [<- Hne]. induction s as [|c s IH]; cbn in *; [congruence|].
    destruct (Str.isspace c) eqn:Hc.
    + destruct (IH Hne) as (pre & post & Hs & Hpre & _ & Ht & Hp).
      exists (String c pre), post. cbn. rewrite Hc, Hpre, <- Hs. auto.
    + destruct (take_word_split (String c s)) as (post & Hs & Hw & Hp).
      exists "", post. cbn in *. rewrite Hc in *. cbn in *. auto.
Qed.

Lemma name_match_iff (tok : string) (o : CommandLineOption) :
  name_match tok o = true <->
  (m_arg o <> "" /\ tok = m_arg o) \/ is_first_token (m_argAlt o) tok.
Proof.
  unfold name_match. rewrite orb_true_iff, !andb_true_iff, !negb_true_iff,
    !empty_false_iff, !String.eqb_eq, extract_first_token.
  split; intros [[H1 H2] | [H1 H2]]; subst; auto.
Qed.

Lemma run_when_set (cs : list call) (o : CommandLineOption) :
  m_set o = true ->
  count_occ bool_dec (fst (run cs o)) true = 0%nat /\ m_set (snd (run cs o)) = true.
Proof.
  revert o. induction cs as [|[tok|v] cs IH]; intros o Hs; cbn.
  - auto.
  - rewrite check_when_set by assumption.
    destruct (run cs o) as [bs o2] eqn:E. cbn.
    specialize (IH o Hs). rewrite E in IH. cbn in IH. assumption.
  - apply IH. assumption.
Qed.

Lemma run_at_most_once (cs : list call) (o : CommandLineOption) :
  (count_occ bool_dec (fst (run cs o)) true <= 1)%nat.
Proof.
  revert o. induction cs as [|[tok|v] cs IH]; intros o; cbn.
  - lia.
  - rewrite check_eq. destruct (matches tok o) eqn:Hm.
    + pose proof (run_when_set cs (with_set true o) eq_refl) as [H _].
      destruct (run cs (with_set true o)) as [bs o2]. cbn in *. lia.
    + specialize (IH o). destruct (run cs o) as [bs o2]. cbn in *. lia.
  - apply IH.
Qed.

Lemma check_keeps (tok : string) (o : CommandLineOption) :
  let o' := snd (check tok o) in
  m_default o' = m_default o /\ m_value o' = m_value o /\
  m_arg o' = m_arg o /\ m_argAlt o' = m_argAlt o /\ m_desc o' = m_desc o /\
  m_required o' = m_required o /\ m_hasValue o' = m_hasValue o /\
  m_isSeparator o' = m_isSeparator o.
Proof.
  rewrite check_eq. cbn. destruct (matches tok o); cbn; repeat split.
Qed.

Lemma run_state (cs : list call) (o : CommandLineOption) :
  let o' := snd (run cs o) in
  (m_set o' = true <-> m_set o = true \/ In true (fst (run cs o))) /\
  m_default o' = m_default o /\
  m_value o' = captured cs (m_value o).
Proof.
  revert o. induction cs as [|[tok|v] cs IH]; intros o; cbn.
  - intuition.
  - pose proof (check_snd_set tok o) as Hs.
    pose proof (check_keeps tok o) as (Hd & Hv & _).
    destruct (check tok o) as [b o1]. cbn in *.
    specialize (IH o1). destruct (run cs o1) as [bs o2]. cbn in *.
    destruct IH as (IH1 & IH2 & IH3). rewrite IH1, IH2, IH3, Hs, Hd, Hv.
    repeat split; try reflexivity.
    + rewrite orb_true_iff. intuition.
    + intros [H | [H | H]]; rewrite ?orb_true_iff; auto.
  - specialize (IH (setValue v o)). cbn in IH. exact IH.
Qed.

(** ** Queries by declaration *)

Lemma CLO_eqb_iff (a b : CommandLineOption) :
  CLO_eqb a b = true <-> same_decl a b.
Proof.
  unfold CLO_eqb, same_decl. rewrite !andb_true_iff, !String.eqb_eq. tauto.
Qed.

Lemma CLO_eqb_false_iff (a b : CommandLineOption) :
  CLO_eqb a b = false <-> ~ same_decl a b.
Proof.
  rewrite <- CLO_eqb_iff. destruct (CLO_eqb a b); split; congruence.
Qed.

Lemma CLO_eqb_query (a q q' : CommandLineOption) :
  same_decl q q' -> CLO_eqb a q = CLO_eqb a q'.
Proof.
  intros (H1 & H2 & H3). unfold CLO_eqb. now rewrite H1, H2, H3.
Qed.

Lemma find_option_query (opts : list CommandLineOption)
    (q q' : CommandLineOption) :
  same_decl q q' -> find_option opts q = find_option opts q'.
Proof.
  intros H. unfold find_option.
  induction opts as [|o opts IH]; cbn; [reflexivity|].
  rewrite (CLO_eqb_query o q q' H), IH. reflexivity.
Qed.

Lemma find_option_first (pre post : list CommandLineOption)
    (r q : CommandLineOption) :
  same_decl r q ->
  (forall x, In x pre -> ~ same_decl x q) ->
  find_option (pre ++ r :: post)%list q = Some r.
Proof.
  intros Hr Hpre. unfold find_option.
  induction pre as [|x pre IH]; cbn.
  - apply CLO_eqb_iff in Hr. now rewrite Hr.
  - assert (Hx : CLO_eqb x q = false)
      by (apply CLO_eqb_false_iff, Hpre; now left).
    rewrite Hx. apply IH. intros y Hy. apply Hpre. now right.
Qed.

Lemma find_option_miss (opts : list CommandLineOption)
    (q : CommandLineOption) :
  (forall r, In r opts -> ~ same_decl r q) -> find_option opts q = None.
Proof.
  intros H. unfold find_option. induction opts as [|x opts IH]; cbn.
  - reflexivity.
  - assert (Hx : CLO_eqb x q = false)
      by (apply CLO_eqb_false_iff, H; now left).
    rewrite Hx. apply IH. intros y Hy. apply H. now right.
Qed.

Lemma find_option_unique (opts : list CommandLineOption)
    (r q : CommandLineOption) :
  In r opts ->
  same_decl r q ->
  (forall x y, In x opts -> In y opts -> same_decl x y -> x = y) ->
  find_option opts q = Some r.
Proof.
  intros Hin Hr Huniq. unfold find_option.
  destruct (find (fun o => CLO_eqb o q) opts) as [x|] eqn:E.
  - apply find_some in E as [Hx Hq]. apply CLO_eqb_iff in Hq.
    f_equal. apply Huniq; auto.
    destruct Hq as (H1 & H2 & H3), Hr as (H4 & H5 & H6).
    repeat split; congruence.
  - apply CLO_eqb_iff in Hr.
    pose proof (find_none _ _ E r Hin) as Hn. cbn in Hn. congruence.
Qed.

(** C7: the three queries look the argument up by declaration equality
    (the two names and the description, nothing else); [std::find] stops
    at the first registered option with that declaration, whose [isSet]
    and [getValue] the queries then give (the registered option itself
    when no two registered options share a declaration); two arguments
    with the same declaration give the same answers; and when no
    registered option has the declaration the answers are false, the
    empty string and the empty list. *)
Theorem C7_lookup_by_declaration (p : CommandLineParser)
    (q : CommandLineOption) (delim : string) :
  (forall a b, CLO_eqb a b = true <-> same_decl a b) /\
  (forall q', same_decl q q' ->
     Parser.isSet p q' = Parser.isSet p q /\
     Parser.getValue p q' = Parser.getValue p q /\
     getValueList p q' delim = getValueList p q delim) /\
  (forall pre r post,
     m_options p = (pre ++ r :: post)%list ->
     same_decl r q ->
     (forall x, In x pre -> ~ same_decl x q) ->
     Parser.isSet p q = CLO.isSet r /\
     Parser.getValue p q = CLO.getValue r /\
     getValueList p q delim = splitString (CLO.getValue r) delim) /\
  (forall r,
     In r (m_options p) ->
     same_decl r q ->
     (forall x y, In x (m_options p) -> In y (m_options p) ->
                  same_decl x y -> x = y) ->
     Parser.isSet p q = CLO.isSet r /\
     Parser.getValue p q = CLO.getValue r /\
     getValueList p q delim = splitString (CLO.getValue r) delim) /\
  ((forall r, In r (m_options p) -> ~ same_decl r q) ->
     Parser.isSet p q = false /\
     Parser.getValue p q = "" /\
     getValueList p q delim = []).
Proof.
  split; [apply CLO_eqb_iff|]. unfold Parser.isSet, Parser.getValue, getValueList.
  split; [|split; [|split]].
  - intros q' H. now rewrite (find_option_query _ q q' H).
  - intros pre r post Hopts Hr Hpre.
    now rewrite Hopts, (find_option_first pre post r q Hr Hpre).
  - intros r Hin Hr Huniq.
    now rewrite (find_option_unique _ r q Hin Hr Huniq).
  - intros H. now rewrite (find_option_miss _ q H).
Qed.

Lemma C7_lookup_by_declaration_witness :
  let live :=
    setValue "in.txt"
      (with_set true (CLO_plain "-f" "--file" "Input file" HasValue_Yes Required_Yes)) in
  let p := addOption live (addHelpOption (create 3 ["prog"; "-f"; "in.txt"] "" "")) in
  let q := CLO_plain "-f" "--file" "Input file" HasValue_No Required_No in
  Parser.isSet p q = true /\ Parser.getValue p q = "in.txt" /\
  getValueList p q "," = ["in.txt"] /\
  Parser.isSet p (CLO_plain "-z" "--zip" "Compress" HasValue_No Required_No) = false.
Proof.
  intros live p q.
  destruct (C7_lookup_by_declaration p q ",") as (_ & _ & Hhit & _ & _).
  assert (Hd : same_decl live q) by (repeat split).
  assert (Hpre : forall x, In x [m_helpOpt p] -> ~ same_decl x q).
  { intros x [<- | []] (H & _). discriminate. }
  destruct (Hhit [m_helpOpt p] live [] eq_refl Hd Hpre) as (H1 & H2 & H3).
  rewrite H1, H2, H3. do 3 (split; [reflexivity|]).
  destruct (C7_lookup_by_declaration p
    (CLO_plain "-z" "--zip" "Compress" HasValue_No Required_No) ",")
    as (_ & _ & _ & Hmiss).
  apply Hmiss.
  intros r [<- | [<- | []]] (H & _); discriminate.
Defined.

(** ** [splitString] *)

Lemma getline_loop_unfold (c : ascii) (s : string) (acc : list string) :
  getline_loop c s acc =
  match Str.getline c s with
  | None => acc
  | Some (item, rest) => getline_loop c rest (acc ++ [item])
  end.
Proof.
  funelim (getline_loop c s acc); rewrite e; reflexivity.
Qed.

Lemma until_spec (c : ascii) (s : string) :
  let (item, rest) := Str.until c s in
  contains c item = false /\
  ((s = item /\ rest = "" /\ contains c s = false)
   \/ s = item ++ String c rest).
Proof.
  induction s as [|a s IH]; cbn.
  - auto.
  - destruct (Ascii.eqb a c) eqn:E.
    + apply Ascii.eqb_eq in E. subst a. cbn. auto.
    + destruct (Str.until c s) as [item rest]. cbn. rewrite E. cbn.
      destruct IH as (Hc & [(-> & -> & Hs) | ->]); split; auto.
Qed.

Lemma until_shorter (c a : ascii) (s : string) :
  (String.length (snd (Str.until c (String a s))) <= String.length s)%nat.
Proof.
  revert a. induction s as [|b s IH]; intros a; cbn.
  - destruct (Ascii.eqb a c); cbn; lia.
  - destruct (Ascii.eqb a c); cbn; [lia|].
    specialize (IH b). cbn in IH.
    destruct (Ascii.eqb b c); cbn in *; [lia|].
    destruct (Str.until c s); cbn in *. lia.
Qed.

Lemma getline_loop_acc (c : ascii) (s : string) (acc : list string) :
  getline_loop c s acc = (acc ++ getline_loop c s [])%list.
Proof.
  remember (String.length s) as n eqn:Hn.
  assert (Hle : (String.length s <= n)%nat) by lia. clear Hn.
  revert s acc Hle. induction n as [|n IH]; intros s acc Hle.
  - destruct s; [|cbn in Hle; lia].
    rewrite !getline_loop_unfold. cbn. now rewrite app_nil_r.
  - rewrite (getline_loop_unfold c s acc), (getline_loop_unfold c s []).
    destruct s as [|a s]; cbn -[Str.until]; [now rewrite app_nil_r|].
    pose proof (until_shorter c a s) as Hs. cbn in Hle.
    destruct (Str.until c (String a s)) as [item rest]. cbn in Hs.
    rewrite (IH rest (acc ++ [item])%list), (IH rest [item]) by lia.
    now rewrite <- app_assoc.
Qed.

Lemma splitString_cons (c a : ascii) (s : string) :
  getline_loop c (String a s) [] =
  fst (Str.until c (String a s))
  :: getline_loop c (snd (Str.until c (String a s))) [].
Proof.
  rewrite getline_loop_unfold. cbn -[Str.until].
  destruct (Str.until c (String a s)) as [item rest]. cbn.
  now rewrite getline_loop_acc.
Qed.

Lemma contains_append (c : ascii) (a b : string) :
  contains c (a ++ b) = (contains c a || contains c b)%bool.
Proof.
  induction a as [|x a IH]; cbn; [reflexivity|].
  now rewrite IH, orb_assoc.
Qed.

Lemma ends_with_append_cons (c : ascii) (a : string) (x : ascii) (b : string) :
  ends_with c (a ++ String x b) = ends_with c (String x b).
Proof.
  induction a as [|y a IH]; [reflexivity|].
  cbn [append]. change (ends_with c (String y (a ++ String x b)))
    with (match a ++ String x b with
          | EmptyString => Ascii.eqb y c
          | String _ _ => ends_with c (a ++ String x b)
          end).
  destruct (a ++ String x b) eqn:E; [destruct a; discriminate|].
  exact IH.
Qed.

Lemma ends_with_contains (c : ascii) (s : string) :
  ends_with c s = true -> contains c s = true.
Proof.
  induction s as [|a s IH]; cbn; [congruence|].
  destruct s as [|b s].
  - intros ->. reflexivity.
  - intros H. rewrite (IH H). apply orb_true_r.
Qed.

(** What the loop of [splitString] computes, said without the stream. *)
Lemma getline_loop_spec (c : ascii) (s : string) :
  let items := getline_loop c s [] in
  Forall (fun it => contains c it = false) items /\
  (s = "" -> items = []) /\
  (s <> "" ->
     items <> [] /\
     (if ends_with c s then join c items ++ String c "" else join c items) = s).
Proof.
  remember (String.length s) as n eqn:Hn.
  assert (Hle : (String.length s <= n)%nat) by lia. clear Hn.
  revert s Hle. induction n as [|n IH]; intros s Hle.
  - destruct s; [|cbn in Hle; lia].
    rewrite getline_loop_unfold. cbn. repeat split; auto; congruence.
  - destruct s as [|a s].
    { rewrite getline_loop_unfold. cbn. repeat split; auto; congruence. }
    cbn zeta. rewrite splitString_cons.
    pose proof (until_shorter c a s) as Hs. cbn in Hle.
    pose proof (until_spec c (String a s)) as Hu.
    destruct (Str.until c (String a s)) as [item rest]. cbn [fst snd] in *.
    destruct (IH rest ltac:(lia)) as (Hall & Hnil & Hcons).
    destruct Hu as (Hitem & Hu).
    split; [constructor; assumption|]. split; [discriminate|].
    intros _. split; [discriminate|].
    destruct Hu as [(Hs1 & -> & Hno) | Hs1].
    + rewrite (Hnil eq_refl). cbn [join]. rewrite <- Hs1 in *.
      destruct (ends_with c (String a s)) eqn:E; [|reflexivity].
      apply ends_with_contains in E. congruence.
    + rewrite Hs1, ends_with_append_cons.
      destruct rest as [|b rest].
      * rewrite (Hnil eq_refl). cbn. now rewrite Ascii.eqb_refl.
      * destruct (Hcons ltac:(discriminate)) as (Hne & Hj).
        destruct (getline_loop c (String b rest) []) as [|y ys] eqn:E;
          [congruence|].
        change (ends_with c (String c (String b rest)))
          with (ends_with c (String b rest)).
        change (join c (item :: y :: ys))
          with (item ++ String c (join c (y :: ys))).
        destruct (ends_with c (String b rest)).
        -- rewrite append_assoc. cbn [append]. now rewrite Hj.
        -- now rewrite Hj.
Qed.

Lemma splitString_char (s delimiter : string) :
  splitString s delimiter = getline_loop (delim_char delimiter) s [].
Proof. reflexivity. Qed.

(** C8: [getValueList] splits the value of the option it finds on one
    character, the first of the delimiter string, or the comma when that
    string is empty: no item holds the character, and the items joined by
    it give the value back, up to one closing delimiter, which yields no
    empty last item.  So "a,b,c" gives three items and "a" one, with the
    comma; and a declaration that was never registered gives no item. *)
Theorem C8_getValueList_split (p : CommandLineParser)
    (opt : CommandLineOption) (delim : string) :
  let c := delim_char delim in
  (delim = "" -> c = ","%char) /\
  (forall d rest, delim = String d rest -> c = d) /\
  (forall r,
     find_option (m_options p) opt = Some r ->
     let v := CLO.getValue r in
     let items := getValueList p opt delim in
     items = getValueList p opt (String c "") /\
     Forall (fun it => contains c it = false) items /\
     (v = "" -> items = []) /\
     (v <> "" ->
        items <> [] /\
        (if ends_with c v then join c items ++ String c "" else join c items)
        = v) /\
     (c = ","%char -> v = "a,b,c" -> items = ["a"; "b"; "c"]) /\
     (c = ","%char -> v = "a" -> items = ["a"])) /\
  ((forall r, In r (m_options p) -> ~ same_decl r opt) ->
     getValueList p opt delim = []).
Proof.
  intros c. split; [now intros ->|]. split; [now intros d rest ->|]. split.
  - intros r Hr v items. unfold items, getValueList. rewrite Hr.
    rewrite !splitString_char. fold v. change (delim_char (String c "")) with c.
    fold c. split; [reflexivity|].
    destruct (getline_loop_spec c v) as (H1 & H2 & H3).
    split; [exact H1|]. split; [exact H2|]. split; [exact H3|].
    split; intros -> ->; reflexivity.
  - intros H. unfold getValueList. now rewrite (find_option_miss _ opt H).
Qed.

Lemma C8_getValueList_split_witness :
  let live :=
    setValue "a,b,c"
      (with_set true (CLO_plain "-l" "--list" "Items" HasValue_Yes Required_No)) in
  let p := addOption live (create 3 ["prog"; "-l"; "a,b,c"] "" "") in
  getValueList p (CLO_plain "-l" "--list" "Items" HasValue_Yes Required_No) ","
  = ["a"; "b"; "c"] /\
  getValueList p (CLO_plain "-n" "--none" "Absent" HasValue_Yes Required_No) ","
  = [].
Proof.
  intros live p. split.
  - destruct (C8_getValueList_split p
      (CLO_plain "-l" "--list" "Items" HasValue_Yes Required_No) ",")
      as (_ & _ & H & _).
    destruct (H live eq_refl) as (_ & _ & _ & _ & Habc & _).
    apply Habc; reflexivity.
  - destruct (C8_getValueList_split p
      (CLO_plain "-n" "--none" "Absent" HasValue_Yes Required_No) ",")
      as (_ & _ & _ & H).
    apply H. intros r [<- | []] (E & _). discriminate.
Defined.

(** ** The scan *)

Section ScanFacts.

Variable p : CommandLineParser.
Variable w : World.

Lemma value_hits_nonneg (str : string) (opts : list CommandLineOption) :
  0 <= value_hits str opts.
Proof.
  induction opts as [|o opts IH]; cbn; [lia|].
  destruct (fst (check str o) && hasValue o)%bool; lia.
Qed.

Lemma hasValue_with_set (b : bool) (o : CommandLineOption) :
  hasValue (with_set b o) = hasValue o.
Proof. reflexivity. Qed.

Lemma scan_options_ok (str : string) (opts : list CommandLineOption)
    (i : Z) (any : bool) opts' i' any' :
  scan_options p w str opts i any = Ok (opts', (i', any')) ->
  turns p str i opts opts' /\
  i' = i + value_hits str opts /\
  any' = (any || existsb (fun o => fst (check str o)) opts)%bool.
Proof.
  revert i any opts' i' any'.
  induction opts as [|o opts IH]; intros i any opts' i' any' H; cbn in H.
  - injection H as <- <- <-. cbn. rewrite orb_false_r.
    repeat split; [constructor | lia].
  - cbn [value_hits existsb]. rewrite check_eq in H. rewrite check_fst.
    destruct (matches str o) eqn:Hm; cbn [andb orb].
    + rewrite hasValue_with_set in H. destruct (hasValue o) eqn:Hv.
      * destruct (i + 1 >=? m_argc p) eqn:Hi; [discriminate|].
        destruct (argv_at p (i + 1)) as [v|] eqn:Ha; [|discriminate].
        destruct (scan_options p w str opts (i + 1) true)
          as [[rest' [i1 any1]]| | | |] eqn:E; try discriminate.
        cbn in H. injection H as <- <- <-.
        destruct (IH _ _ _ _ _ E) as (Ht & -> & ->).
        split; [|split; [lia | now rewrite ?orb_true_r]].
        constructor.
        -- apply turn_value; rewrite ?check_fst; auto. lia.
        -- cbn. rewrite check_fst, Hm, Hv. cbn. exact Ht.
      * destruct (scan_options p w str opts i true)
          as [[rest' [i1 any1]]| | | |] eqn:E; try discriminate.
        cbn in H. injection H as <- <- <-.
        destruct (IH _ _ _ _ _ E) as (Ht & -> & ->).
        split; [|split; [lia | now rewrite ?orb_true_r]].
        constructor.
        -- apply turn_flag; rewrite ?check_fst; auto.
        -- cbn. rewrite check_fst, Hm, Hv. cbn.
           now rewrite Z.add_0_r.
    + destruct (scan_options p w str opts i any)
        as [[rest' [i1 any1]]| | | |] eqn:E; try discriminate.
      cbn in H. injection H as <- <- <-.
      destruct (IH _ _ _ _ _ E) as (Ht & -> & ->).
      split; [|split; [lia | reflexivity]].
      constructor.
      * apply turn_refused. now rewrite check_fst.
      * cbn. rewrite check_fst, Hm. cbn.
        now rewrite Z.add_0_r.
Qed.

Lemma turns_length (str : string) k opts opts' :
  turns p str k opts opts' -> List.length opts' = List.length opts.
Proof. induction 1; cbn; congruence. Qed.

Lemma turns_nth (str : string) k opts opts' :
  turns p str k opts opts' ->
  forall j o, nth_error opts j = Some o ->
  exists o', nth_error opts' j = Some o' /\
             turn p str (k + value_hits str (firstn j opts)) o o'.
Proof.
  induction 1 as [k | k o o' rest rest' Ht Hts IH]; intros j x Hj.
  - destruct j; discriminate.
  - destruct j as [|j]; cbn in Hj.
    + injection Hj as <-. exists o'. cbn. split; [reflexivity|].
      now replace (k + 0) with k by lia.
    + destruct (IH j x Hj) as (x' & Hx' & Hturn).
      exists x'. split; [exact Hx'|].
      cbn [firstn value_hits] in *.
      now replace (k + ((if (fst (check str o) && hasValue o)%bool then 1 else 0)
                        + value_hits str (firstn j rest)))
        with (k + ((if (fst (check str o) && hasValue o)%bool then 1 else 0) + 0)
              + value_hits str (firstn j rest)) by lia.
Qed.

Lemma turn_when_set (str : string) k o o' :
  m_set o = true -> turn p str k o o' -> o' = o.
Proof.
  intros Hs Ht.
  assert (Hc : fst (check str o) = false)
    by now rewrite check_when_set.
  destruct Ht; congruence.
Qed.

Lemma turn_same_decl (str : string) k o o' :
  turn p str k o o' -> same_decl o o'.
Proof. destruct 1; repeat split. Qed.

End ScanFacts.

Section ScanLoop.

Variable p : CommandLineParser.
Variable w : World.


Lemma scan_args_fuel (f1 f2 : nat) opts i any :
  (Z.to_nat (m_argc p - i) <= f1)%nat ->
  (Z.to_nat (m_argc p - i) <= f2)%nat ->
  scan_args p w f1 opts i any = scan_args p w f2 opts i any.
Proof.
  revert f2 opts i any.
  induction f1 as [|f1 IH]; intros f2 opts i any H1 H2.
  - destruct f2; cbn; [reflexivity|].
    destruct (i <? m_argc p) eqn:E; [apply Z.ltb_lt in E; lia | reflexivity].
  - destruct f2 as [|f2]; cbn.
    + destruct (i <? m_argc p) eqn:E; [apply Z.ltb_lt in E; lia | reflexivity].
    + destruct (i <? m_argc p) eqn:E; [|reflexivity].
      apply Z.ltb_lt in E.
      destruct (argv_at p i) as [str|]; [|reflexivity].
      destruct (scan_options p w str opts i any)
        as [[opts' [i' any']]| | | |] eqn:Es; cbn; try reflexivity.
      apply scan_options_ok in Es as (_ & -> & _).
      pose proof (value_hits_nonneg str opts).
      apply IH; lia.
Qed.


Lemma loop_head_scan i opts any :
  loop_head p w i opts any ->
  1 <= i /\
  scan p w = scan_args p w (Z.to_nat (m_argc p - i)) opts i any.
Proof.
  induction 1 as [|i opts any str opts' i' any' Hh [Hi IH] Hlt Hstr Hs].
  - split; [lia|]. unfold scan. apply scan_args_fuel; lia.
  - pose proof (scan_options_ok p w _ _ _ _ _ _ _ Hs) as (_ & Hi' & _).
    pose proof (value_hits_nonneg str opts).
    split; [lia|]. rewrite IH.
    destruct (Z.to_nat (m_argc p - i)) as [|f] eqn:Ef; [lia|].
    cbn. apply Z.ltb_lt in Hlt. rewrite Hlt, Hstr, Hs. cbn.
    apply scan_args_fuel; lia.
Qed.






(** An option that is set is left as it is by the rest of the scan. *)
Lemma turns_keep_set (str : string) k opts opts' :
  turns p str k opts opts' ->
  forall j o, nth_error opts j = Some o -> m_set o = true ->
              nth_error opts' j = Some o.
Proof.
  intros Ht j o Hj Hs.
  destruct (turns_nth p str k opts opts' Ht j o Hj) as (o' & Ho' & Hturn).
  now rewrite (turn_when_set p str _ o o' Hs Hturn) in Ho'.
Qed.

Lemma scan_args_keep_set (f : nat) opts i any optsF anyF :
  scan_args p w f opts i any = Ok (optsF, anyF) ->
  forall j o, nth_error opts j = Some o -> m_set o = true ->
              nth_error optsF j = Some o.
Proof.
  revert opts i any. induction f as [|f IH]; intros opts i any H j o Hj Hs;
    cbn in H; destruct (i <? m_argc p); try discriminate;
    try (injection H as <- <-; assumption).
  destruct (argv_at p i) as [str|]; [|discriminate].
  destruct (scan_options p w str opts i any)
    as [[opts' [i' any']]| | | |] eqn:Es; cbn in H; try discriminate.
  apply scan_options_ok in Es as (Ht & _).
  eapply IH; [exact H | | exact Hs].
  eapply turns_keep_set; eauto.
Qed.

End ScanLoop.

Section ScanOrder.

Variable p : CommandLineParser.
Variable w : World.



End ScanOrder.

(** ** The calls of a scan on one option *)

Lemma run_app (cs1 cs2 : list call) (o : CommandLineOption) :
  run (cs1 ++ cs2) o
  = (fst (run cs1 o) ++ fst (run cs2 (snd (run cs1 o))),
     snd (run cs2 (snd (run cs1 o))))%list.
Proof.
  revert o. induction cs1 as [|[tok|v] cs1 IH]; intros o; cbn.
  - now destruct (run cs2 o).
  - destruct (check tok o) as [b o1]. rewrite IH.
    destruct (run cs1 o1) as [bs o2]. reflexivity.
  - apply IH.
Qed.

Lemma turn_run (p : CommandLineParser) (str : string) (k : Z)
    (o o' : CommandLineOption) :
  turn p str k o o' ->
  snd (run [Check str] o) = o'
  \/ exists v, snd (run [Check str; SetValue v] o) = o'.
Proof.
  intros [Hc | Hc Hv | v Hc Hv Hlt Ha]; cbn; rewrite check_eq;
    rewrite check_fst in Hc; rewrite Hc; cbn.
  - now left.
  - now left.
  - right. now exists v.
Qed.

(** At a head of the outer loop every option is what a sequence of
    calls, one [check] per flag token read so far, has made of the
    option that was registered. *)
Lemma loop_head_history (p : CommandLineParser) (w : World) i opts any :
  loop_head p w i opts any ->
  exists toks,
    forall j o0,
      nth_error (m_options p) j = Some o0 ->
      exists cs, calls_for toks cs /\
                 nth_error opts j = Some (snd (run cs o0)).
Proof.
  induction 1 as [|i opts any str opts' i' any' Hh [toks IH] Hlt Hstr Hs].
  - exists []. intros j o0 Hj. exists []. split; [constructor | exact Hj].
  - exists (toks ++ [str])%list. intros j o0 Hj.
    destruct (IH j o0 Hj) as (cs & Hcs & Ho).
    apply scan_options_ok in Hs as (Ht & _).
    destruct (turns_nth p str i opts opts' Ht j _ Ho) as (o' & Ho' & Hturn).
    apply turn_run in Hturn as [Hr | [v Hr]].
    + exists (cs ++ [Check str])%list. split; [now constructor|].
      now rewrite run_app, Ho'; cbn [snd]; rewrite Hr.
    + exists (cs ++ [Check str; SetValue v])%list. split; [now constructor|].
      now rewrite run_app, Ho'; cbn [snd]; rewrite Hr.
Qed.

Lemma scan_args_ends_at_head (p : CommandLineParser) (w : World)
    (f : nat) i opts any optsF anyF :
  loop_head p w i opts any ->
  scan_args p w f opts i any = Ok (optsF, anyF) ->
  exists i', loop_head p w i' optsF anyF.
Proof.
  revert i opts any. induction f as [|f IH]; intros i opts any Hh H;
    cbn in H; destruct (i <? m_argc p) eqn:E; try discriminate;
    try (injection H as <- <-; now exists i).
  apply Z.ltb_lt in E.
  destruct (argv_at p i) as [str|] eqn:Ha; [|discriminate].
  destruct (scan_options p w str opts i any)
    as [[opts' [i' any']]| | | |] eqn:Es; cbn in H; try discriminate.
  apply (IH (i' + 1) opts' any'); [|exact H].
  eapply head_next; eauto.
Qed.

(** The same at the end of a completed scan. *)
Lemma scan_history (p : CommandLineParser) (w : World) optsF anyF :
  scan p w = Ok (optsF, anyF) ->
  exists toks,
    forall j o0,
      nth_error (m_options p) j = Some o0 ->
      exists cs, calls_for toks cs /\
                 nth_error optsF j = Some (snd (run cs o0)).
Proof.
  intros H. unfold scan in H.
  destruct (scan_args_ends_at_head p w _ _ _ _ _ _ (head_first p w) H)
    as [i Hh].
  eapply loop_head_history; eauto.
Qed.

(** C2: an option that is set refuses every token; one that is not set
    accepts exactly its non-empty primary name and the first
    white-space-delimited token of its alternate-name field, and is set
    after the call exactly when the call returned true (nothing else
    changes); so over any sequence of calls on one option object, [check]
    returns true at most once; and what a scan does to an option is such
    a sequence of calls, with one [check] for each flag token read. *)
Theorem C2_check_one_shot (o : CommandLineOption) (tok : string) :
  (m_set o = true -> check tok o = (false, o)) /\
  (m_set o = false ->
     (fst (check tok o) = true <->
        (m_arg o <> "" /\ tok = m_arg o) \/ is_first_token (m_argAlt o) tok) /\
     m_set (snd (check tok o)) = fst (check tok o) /\
     snd (check tok o) = with_set (fst (check tok o)) o) /\
  (forall cs : list call,
     (count_occ bool_dec (fst (run cs o)) true <= 1)%nat) /\
  (forall p w i opts any,
     loop_head p w i opts any ->
     exists toks,
       forall j o0,
         nth_error (m_options p) j = Some o0 ->
         exists cs, calls_for toks cs /\
                    nth_error opts j = Some (snd (run cs o0))).
Proof.
  split; [apply check_when_set|].
  split; [|split; [intros; apply run_at_most_once | apply loop_head_history]].
  intros Hs. rewrite check_eq. cbn [fst snd]. unfold matches. rewrite Hs.
  cbn [negb andb]. split; [apply name_match_iff|].
  destruct (name_match tok o); cbn; split; auto.
  now rewrite <- Hs, with_set_same.
Qed.

Lemma C2_check_one_shot_witness :
  let o := CLO_plain "-f" "--file PATH" "Input file" HasValue_Yes Required_No in
  fst (check "--file" o) = true /\
  m_set (snd (check "--file" o)) = true /\
  fst (run [Check "-f"; SetValue "a"; Check "--file"; Check "-f"] o)
  = [true; false; false].
Proof.
  intro o.
  destruct (C2_check_one_shot o "--file") as (_ & H & _ & _).
  destruct (H eq_refl) as (Hiff & Hset & _).
  assert (Hc : fst (check "--file" o) = true).
  { apply Hiff. right. exists "", " PATH". cbn.
    repeat split; try reflexivity; try discriminate.
    right. exists " "%char, "PATH". split; reflexivity. }
  split; [exact Hc|]. split; [rewrite Hset; exact Hc | reflexivity].
Defined.

(** C6: [CLO.isSet] holds exactly when the option was matched or has a
    non-empty default, and [CLO.getValue] is the captured value of a matched
    option and the default otherwise.  The first half speaks of the state
    of the object, the second of a fresh object after any sequence of
    calls, where matched means that one [check] returned true; and at
    the end of a completed scan every option is the registered one after
    such a sequence of calls, one [check] for each flag token read. *)
Theorem C6_isSet_getValue (o : CommandLineOption) :
  (CLO.isSet o = true <-> m_set o = true \/ m_default o <> "") /\
  (m_set o = true -> CLO.getValue o = m_value o) /\
  (m_set o = false -> CLO.getValue o = m_default o) /\
  (forall cs : list call,
     m_set o = false ->
     let matched := In true (fst (run cs o)) in
     let o' := snd (run cs o) in
     (CLO.isSet o' = true <-> matched \/ m_default o <> "") /\
     (matched -> CLO.getValue o' = captured cs (m_value o)) /\
     (~ matched -> CLO.getValue o' = m_default o) /\
     (~ matched -> m_default o <> "" ->
        CLO.isSet o' = true /\ CLO.getValue o' = m_default o) /\
     (~ matched -> m_default o = "" -> CLO.isSet o' = false /\ CLO.getValue o' = "")) /\
  (forall p w optsF anyF j,
     scan p w = Ok (optsF, anyF) ->
     nth_error (m_options p) j = Some o ->
     exists toks cs,
       calls_for toks cs /\ nth_error optsF j = Some (snd (run cs o))).
Proof.
  assert (H1 : forall x, CLO.isSet x = true <-> m_set x = true \/ m_default x <> "").
  { intros x. unfold CLO.isSet.
    now rewrite orb_true_iff, negb_true_iff, empty_false_iff. }
  split; [apply H1|].
  split; [unfold CLO.getValue; now intros ->|].
  split; [unfold CLO.getValue; now intros ->|].
  split.
  2:{ intros p w optsF anyF j Hscan Hj.
      destruct (scan_history p w optsF anyF Hscan) as (toks & H).
      destruct (H j o Hj) as (cs & Hcs & Hn). now exists toks, cs. }
  intros cs Hs matched o'.
  destruct (run_state cs o) as (Hset & Hd & Hv). fold o' in Hset, Hd, Hv.
  fold matched in Hset. rewrite Hs in Hset. unfold CLO.getValue.
  assert (Hm : m_set o' = true <-> matched) by intuition congruence.
  assert (Hn : ~ matched -> m_set o' = false).
  { intros Hn. destruct (m_set o'); [exfalso; apply Hn, Hm; reflexivity | reflexivity]. }
  split; [rewrite H1, Hd, Hm; tauto|].
  split; [intros H; apply Hm in H; now rewrite H, Hv|].
  split; [intros H; now rewrite (Hn H)|].
  split.
  - intros H Hne. split; [apply H1; right; now rewrite Hd|].
    now rewrite (Hn H).
  - intros H He. split.
    + unfold CLO.isSet. rewrite (Hn H), Hd, He. reflexivity.
    + rewrite (Hn H), Hd. assumption.
Qed.

Lemma C6_isSet_getValue_witness :
  let o := CLO_default "-o" "--out" "Output file" "out.txt" Required_No in
  let cs := [Check "-x"; Check "--in"] in
  CLO.isSet (snd (run cs o)) = true /\ CLO.getValue (snd (run cs o)) = "out.txt".
Proof.
  intros o cs.
  destruct (C6_isSet_getValue o) as (_ & _ & _ & H & _).
  destruct (H cs eq_refl) as (_ & _ & _ & Hd & _).
  apply Hd.
  - cbn. intros [E | [E | []]]; discriminate.
  - discriminate.
Defined.

(** The scan leaves the declaration of every option as it is, so the
    queries find after it the option they would have found before. *)
Lemma same_decl_trans (a b c : CommandLineOption) :
  same_decl a b -> same_decl b c -> same_decl a c.
Proof.
  intros (H1 & H2 & H3) (H4 & H5 & H6). repeat split; congruence.
Qed.

Lemma turns_same_decl (p : CommandLineParser) (str : string) k opts opts' :
  turns p str k opts opts' -> Forall2 same_decl opts opts'.
Proof.
  induction 1; constructor; eauto using turn_same_decl.
Qed.

Lemma scan_args_same_decl (p : CommandLineParser) (w : World) (f : nat)
    opts i any optsF anyF :
  scan_args p w f opts i any = Ok (optsF, anyF) ->
  Forall2 same_decl opts optsF.
Proof.
  revert opts i any. induction f as [|f IH]; intros opts i any H;
    cbn in H; destruct (i <? m_argc p); try discriminate;
    try (injection H as <- <-; clear; induction opts; constructor;
         [repeat split | assumption]).
  destruct (argv_at p i) as [str|]; [|discriminate].
  destruct (scan_options p w str opts i any)
    as [[opts' [i' any']]| | | |] eqn:Es; cbn in H; try discriminate.
  apply scan_options_ok in Es as (Ht & _).
  apply turns_same_decl in Ht. apply IH in H.
  clear - Ht H. revert optsF H.
  induction Ht as [|a b l l' Hab Hl IHl]; intros optsF H; inversion H; subst;
    constructor; eauto using same_decl_trans.
Qed.




(** ** The value-starved option *)

Lemma scan_args_step (p : CommandLineParser) (w : World) (f : nat)
    (opts : list CommandLineOption) (i : Z) (any : bool) (str : string) :
  i < m_argc p ->
  argv_at p i = Some str ->
  scan_args p w (S f) opts i any
  = ('(opts', (i', any')) <- scan_options p w str opts i any ;;
     scan_args p w f opts' (i' + 1) any').
Proof.
  intros Hlt Ha. cbn [scan_args]. apply Z.ltb_lt in Hlt. now rewrite Hlt, Ha.
Qed.

Lemma scan_options_starved (p : CommandLineParser) (w : World)
    (str : string) (pre : list CommandLineOption) (o : CommandLineOption)
    (post : list CommandLineOption) (i : Z) (any : bool) :
  (forall x, In x pre -> hasValue x = true -> fst (check str x) = false) ->
  hasValue o = true ->
  fst (check str o) = true ->
  i + 1 >= m_argc p ->
  scan_options p w str (pre ++ o :: post) i any
  = Exit (-1) (to_cerr (starved_msg o) w).
Proof.
  intros Hpre Hv Hc Hi. revert any.
  induction pre as [|x pre IH]; intros any; cbn [app scan_options].
  - rewrite check_eq. rewrite check_fst in Hc. rewrite Hc.
    rewrite hasValue_with_set, Hv.
    assert (Hge : (i + 1 >=? m_argc p) = true) by (apply Z.geb_le; lia).
    rewrite Hge. reflexivity.
  - assert (IH' := IH (fun y Hy => Hpre y (or_intror Hy))).
    pose proof (Hpre x (or_introl eq_refl)) as Hx.
    rewrite check_eq. rewrite check_fst in Hx.
    destruct (matches str x) eqn:Hm.
    + rewrite hasValue_with_set.
      destruct (hasValue x); [specialize (Hx eq_refl); discriminate|].
      now rewrite IH'.
    + now rewrite IH'.
Qed.

(** C3: when the scan comes to the last token and a value-bearing option
    accepts it (the value-bearing options before it in the collection
    refuse the token, so that its [check] is reached), [parse] writes
    the error line with the two names of that option to the error
    stream and calls [exit(-1)]. *)
Theorem C3_starved_option (basename : option string -> string)
    (fuel : nat) (rm : bool) (p : CommandLineParser) (w : World)
    (i : Z) (opts : list CommandLineOption) (any : bool) (str : string)
    (pre : list CommandLineOption) (o : CommandLineOption)
    (post : list CommandLineOption) :
  loop_head p w i opts any ->
  i = m_argc p - 1 ->
  argv_at p i = Some str ->
  opts = (pre ++ o :: post)%list ->
  hasValue o = true ->
  fst (check str o) = true ->
  (forall x, In x pre -> hasValue x = true -> fst (check str x) = false) ->
  exists w',
    parse basename fuel rm p w = Exit (-1) w' /\
    -1 <> 0 /\
    cout w' = cout w /\
    cerr w' =
      cerr w ++ "ERROR: Option (" ++ m_arg o ++ " / " ++ m_argAlt o
      ++ ") requires a value, but none was provided, exiting ..." ++ Str.nl.
Proof.
  intros Hh Hi Ha -> Hv Hc Hpre.
  exists (to_cerr (starved_msg o) w).
  split; [|split; [lia | split; reflexivity]].
  destruct (loop_head_scan p w i _ any Hh) as [H1 Heq].
  unfold parse. rewrite Heq.
  replace (m_argc p - i) with 1 by lia. change (Z.to_nat 1) with 1%nat.
  rewrite (scan_args_step p w 0 _ i any str) by (assumption || lia).
  rewrite (scan_options_starved p w str pre o post i any Hpre Hv Hc) by lia.
  reflexivity.
Qed.

Lemma C3_starved_option_witness :
  let file := CLO_plain "-f" "--file" "Input file" HasValue_Yes Required_Yes in
  let p := addOption file (addHelpOption (create 2 ["prog"; "-f"] "" "")) in
  let w := mkWorld "" "" in
  exists w',
    parse (fun _ => "prog") 0 true p w = Exit (-1) w' /\
    cerr w' = "ERROR: Option (-f / --file) requires a value, but none was provided, exiting ..." ++ Str.nl.
Proof.
  intros file p w.
  assert (Hpre : forall x, In x [m_helpOpt p] -> hasValue x = true ->
                           fst (check "-f" x) = false).
  { intros x [<- | []] _. reflexivity. }
  destruct (C3_starved_option (fun _ => "prog") 0 true p w 1 (m_options p)
              false "-f" [m_helpOpt p] file [] (head_first p w)
              eq_refl eq_refl eq_refl eq_refl eq_refl Hpre)
    as (w' & Hp & _ & _ & Herr).
  exists w'. split; [exact Hp | exact Herr].
Defined.

(** ** Required options *)

Lemma report_missing_spec (opts : list CommandLineOption) (b : bool)
    (w : World) :
  report_missing opts b w
  = ((b && forallb (fun o => negb (is_missing o)) opts)%bool,
     to_cerr (lines (map missing_msg (filter is_missing opts))) w).
Proof.
  revert b w. induction opts as [|o opts IH]; intros b w; cbn.
  - now rewrite andb_true_r, to_cerr_empty.
  - fold (is_missing o). destruct (is_missing o); cbn.
    + rewrite IH. cbn. rewrite to_cerr_app, andb_false_r. reflexivity.
    + apply IH.
Qed.

Lemma forallb_not_missing (opts : list CommandLineOption) :
  forallb (fun o => negb (is_missing o)) opts = true
  <-> filter is_missing opts = [].
Proof.
  induction opts as [|o opts IH]; cbn; [tauto|].
  destruct (is_missing o); cbn; [split; discriminate | exact IH].
Qed.

(** C5: when the scan is over and neither the help nor the version path
    is taken, [parse] writes one error line, with its two names, for
    each option that is required and for which [isSet] is false, in the
    order of the collection, and then calls [exit(-1)] if there was such
    an option and returns if there was none; whether some option was
    matched ([any]) plays no part. *)
Theorem C5_required_validation (basename : option string -> string)
    (fuel : nat) (rm : bool) (p : CommandLineParser) (w : World)
    (opts : list CommandLineOption) (any : bool) :
  scan p w = Ok (opts, any) ->
  (Parser.isSet (with_options opts p) (m_helpOpt p)
   || (negb any && rm))%bool = false ->
  Parser.isSet (with_options opts p) (m_verOpt p) = false ->
  let missing := filter (fun o => (isRequired o && negb (CLO.isSet o))%bool) opts in
  let w' := mkWorld (cout w) (cerr w ++ lines (map missing_msg missing)) in
  (forall o, missing_msg o =
             "ERROR: Required option (" ++ m_arg o ++ " / " ++ m_argAlt o
             ++ ") not set, exiting ..." ++ Str.nl) /\
  (missing = [] ->
     parse basename fuel rm p w = Ok (with_options opts p, w)) /\
  (missing <> [] ->
     parse basename fuel rm p w = Exit (-1) w' /\ -1 <> 0).
Proof.
  intros Hscan Hhelp Hver missing w'.
  split; [reflexivity|].
  unfold parse. rewrite Hscan. cbn [bind].
  change (m_helpOpt (with_options opts p)) with (m_helpOpt p).
  change (m_verOpt (with_options opts p)) with (m_verOpt p).
  rewrite Hhelp, Hver.
  change (m_options (with_options opts p)) with opts.
  rewrite report_missing_spec. cbn [andb].
  change (filter is_missing opts) with missing.
  change (to_cerr (lines (map missing_msg missing)) w) with w'.
  pose proof (forallb_not_missing opts) as Hiff.
  change (filter is_missing opts) with missing in Hiff.
  destruct (forallb (fun o => negb (is_missing o)) opts).
  - assert (E : missing = []) by now apply Hiff.
    split; [|congruence]. intros _. cbn.
    unfold w'. rewrite E. cbn. rewrite append_empty_r. now destruct w.
  - split; [|intros _; split; [reflexivity | lia]].
    intros Hm. apply Hiff in Hm. discriminate.
Qed.

Lemma C5_required_validation_witness :
  let f := CLO_plain "-f" "--file" "Input file" HasValue_Yes Required_Yes in
  let g := CLO_plain "-g" "--gain" "Gain" HasValue_Yes Required_No in
  let p := addOption g (addOption f
             (addHelpOption (create 3 ["prog"; "-g"; "x"] "" ""))) in
  parse (fun _ => "prog") 0 true p (mkWorld "" "")
  = Exit (-1)
      (mkWorld "" ("ERROR: Required option (-f / --file) not set, exiting ..."
                   ++ Str.nl)).
Proof.
  intros f g p.
  destruct (scan p (mkWorld "" "")) as [[opts any]| | | |] eqn:E;
    try (vm_compute in E; discriminate E).
  assert (E' := E). vm_compute in E'. injection E' as <- <-.
  destruct (C5_required_validation (fun _ => "prog") 0 true p (mkWorld "" "")
              _ _ E eq_refl eq_refl) as (_ & _ & H).
  destruct H as [H _]; [discriminate|]. exact H.
Defined.

(** ** Separators *)

Lemma check_separator (tok : string) :
  check tok separator = (false, separator).
Proof. reflexivity. Qed.

Lemma scan_options_separator (p : CommandLineParser) (w : World)
    (str : string) (pre post : list CommandLineOption) (i : Z) (any : bool) :
  scan_options p w str (pre ++ separator :: post) i any
  = ('(opts', r) <- scan_options p w str (pre ++ post) i any ;;
     Ok (insert_at (List.length pre) separator opts', r)).
Proof.
  revert i any. induction pre as [|x pre IH]; intros i any.
  - cbn [app scan_options List.length]. rewrite check_separator.
    destruct (scan_options p w str post i any) as [[rest r]| | | |];
      reflexivity.
  - cbn [app scan_options List.length].
    destruct (check str x) as [hit x1].
    destruct hit; [destruct (hasValue x1)|].
    + destruct (i + 1 >=? m_argc p); [reflexivity|].
      destruct (argv_at p (i + 1)); [|reflexivity].
      rewrite IH.
      destruct (scan_options p w str (pre ++ post) (i + 1) true)
        as [[rest r]| | | |]; reflexivity.
    + rewrite IH.
      destruct (scan_options p w str (pre ++ post) i true)
        as [[rest r]| | | |]; reflexivity.
    + rewrite IH.
      destruct (scan_options p w str (pre ++ post) i any)
        as [[rest r]| | | |]; reflexivity.
Qed.

Lemma insert_at_split {A : Type} (n : nat) (x : A) (l : list A) :
  (n <= List.length l)%nat ->
  exists pre post, l = (pre ++ post)%list /\ List.length pre = n /\
                   insert_at n x l = (pre ++ x :: post)%list.
Proof.
  intros H. exists (firstn n l), (skipn n l).
  split; [now rewrite firstn_skipn|]. split; [|reflexivity].
  rewrite length_firstn. lia.
Qed.

Lemma scan_args_separator (p : CommandLineParser) (w : World) (f : nat)
    (n : nat) (opts : list CommandLineOption) (i : Z) (any : bool) :
  (n <= List.length opts)%nat ->
  scan_args p w f (insert_at n separator opts) i any
  = ('(opts', a) <- scan_args p w f opts i any ;;
     Ok (insert_at n separator opts', a)).
Proof.
  revert opts i any. induction f as [|f IH]; intros opts i any Hn;
    cbn [scan_args]; destruct (i <? m_argc p); try reflexivity.
  destruct (argv_at p i) as [str|]; [|reflexivity].
  destruct (insert_at_split n separator opts Hn) as (pre & post & -> & <- & ->).
  rewrite scan_options_separator.
  destruct (scan_options p w str (pre ++ post) i any)
    as [[opts' [i' any']]| | | |] eqn:E; try reflexivity.
  cbn [bind]. apply IH.
  apply scan_options_ok in E as (Ht & _).
  rewrite (turns_length p str i _ _ Ht), length_app. lia.
Qed.

Lemma scan_with_options (p : CommandLineParser) (w : World) (f : nat)
    (opts0 opts : list CommandLineOption) (i : Z) (any : bool) :
  scan_args (with_options opts0 p) w f opts i any = scan_args p w f opts i any.
Proof. reflexivity. Qed.

Lemma report_missing_separator (pre post : list CommandLineOption)
    (b : bool) (w : World) :
  report_missing (pre ++ separator :: post) b w
  = report_missing (pre ++ post) b w.
Proof.
  revert b w. induction pre as [|x pre IH]; intros b w; cbn.
  - reflexivity.
  - destruct (isRequired x && negb (CLO.isSet x))%bool; apply IH.
Qed.

(** C10: the entry that [addSeparator] appends refuses every token and
    stays as it is, not set.  The scan of a collection with a separator
    in it is the scan of the collection without it, with the separator
    put back in its place: the same counter after each token (no token
    is taken by the separator), the same [anyMatch], the same exits; and
    the report of the missing required options is the same with or
    without it. *)
Theorem C10_separator_inert (p : CommandLineParser) (w : World) :
  m_options (addSeparator p) = (m_options p ++ [separator])%list /\
  (m_arg separator = "" /\ m_argAlt separator = "" /\
   hasValue separator = false /\ isRequired separator = false /\
   m_set separator = false) /\
  (forall tok, check tok separator = (false, separator)) /\
  (forall str pre post i any,
     scan_options p w str (pre ++ separator :: post) i any
     = ('(opts', r) <- scan_options p w str (pre ++ post) i any ;;
        Ok (insert_at (List.length pre) separator opts', r))) /\
  (forall pre post,
     scan (with_options (pre ++ separator :: post) p) w
     = ('(opts', a) <- scan (with_options (pre ++ post) p) w ;;
        Ok (insert_at (List.length pre) separator opts', a))) /\
  (forall pre post b w0,
     report_missing (pre ++ separator :: post) b w0
     = report_missing (pre ++ post) b w0).
Proof.
  split; [reflexivity|]. split; [repeat split|].
  split; [apply check_separator|].
  split; [apply scan_options_separator|].
  split; [|apply report_missing_separator].
  intros pre post. unfold scan.
  change (m_options (with_options (pre ++ separator :: post) p))
    with (pre ++ separator :: post)%list.
  change (m_options (with_options (pre ++ post) p)) with (pre ++ post)%list.
  change (m_argc (with_options (pre ++ separator :: post) p)) with (m_argc p).
  change (m_argc (with_options (pre ++ post) p)) with (m_argc p).
  rewrite !scan_with_options.
  assert (Hins : (pre ++ separator :: post)%list
                 = insert_at (List.length pre) separator (pre ++ post)).
  { unfold insert_at. rewrite firstn_app, skipn_app, Nat.sub_diag.
    rewrite firstn_all, skipn_all. cbn. now rewrite app_nil_r. }
  rewrite Hins. apply scan_args_separator. rewrite length_app. lia.
Qed.

(** ** The wrapping loop and the help path *)

Lemma find_last_from_absent (c : ascii) (s : string) (i pos last : Z) :
  contains c s = false -> Str.find_last_from c s i pos last = last.
Proof.
  revert i. induction s as [|a s IH]; intros i H; cbn in *; [reflexivity|].
  apply orb_false_iff in H as [Ha Hs]. rewrite Ha, andb_false_r.
  now apply IH.
Qed.

Lemma substr_whole (s : string) :
  Str.len s <= Str.npos -> Str.substr s 0 Str.npos = Some s.
Proof.
  intros H. unfold Str.substr, Str.len in *.
  destruct (0 >? Z.of_nat (String.length s)) eqn:E; [lia|].
  rewrite Z.sub_0_r, Z.min_r by lia. rewrite Nat2Z.id. cbn [Z.to_nat].
  now rewrite substring_all.
Qed.

(** When the search for a blank fails, [spacePos] is [npos]: the whole
    text is written, [npos + 1] wraps to 0, the text is assigned to
    itself and the loop starts again in the same state. *)
Lemma wrap_loop_stuck (addSpace : Z) (desc : string) :
  (Str.size_wrap (Str.len desc + spaceArgDesc + addSpace) >? maxLineLen) = true ->
  Str.find_last_of desc " "
    (Str.size_wrap (maxLineLen - Str.size_wrap (spaceArgDesc + addSpace)))
  = Str.npos ->
  Str.len desc <= Str.npos ->
  forall (fuel : nat) (os : string),
    wrap_loop fuel addSpace desc os = OutOfFuel.
Proof.
  intros Hlong Hfind Hlen fuel.
  induction fuel as [|fuel IH]; intros os; cbn [wrap_loop]; rewrite Hlong.
  - reflexivity.
  - rewrite Hfind.
    change (Str.size_wrap (Str.npos + 1)) with 0.
    rewrite (substr_whole desc Hlen). apply IH.
Qed.

Lemma find_last_from_range (c : ascii) (s : string) (i pos last : Z) :
  Str.find_last_from c s i pos last = last
  \/ (i <= Str.find_last_from c s i pos last < i + Str.len s
      /\ Str.find_last_from c s i pos last <= pos).
Proof.
  revert i last. induction s as [|a s IH]; intros i last; cbn [Str.find_last_from].
  - now left.
  - assert (Hlen : Str.len (String a s) = Str.len s + 1)
      by (unfold Str.len; cbn [String.length]; lia).
    assert (0 <= Str.len s) by (unfold Str.len; lia).
    destruct ((i <=? pos) && Ascii.eqb a c)%bool eqn:E.
    + apply andb_true_iff in E as [Hi _]. apply Z.leb_le in Hi.
      right. destruct (IH (i + 1) i) as [-> | [H1 H2]]; lia.
    + destruct (IH (i + 1) last) as [-> | [H1 H2]]; [now left | right; lia].
Qed.

Lemma substring_shorter (n m : nat) (s : string) :
  (String.length (String.substring n m s) <= String.length s - n)%nat.
Proof.
  revert n m. induction s as [|a s IH]; intros n m.
  - destruct n, m; cbn; lia.
  - destruct n as [|n].
    + destruct m as [|m]; cbn; [lia|]. specialize (IH 0%nat m). lia.
    + cbn. apply IH.
Qed.

(** A turn of the wrapping loop whose search finds a blank: both calls
    of [substr] are in range and the text left is shorter. *)
Lemma wrap_loop_turn (desc : string) (pos : Z) :
  Str.len desc <= Str.npos ->
  Str.find_last_of desc " " pos <> Str.npos ->
  exists line rest,
    Str.substr desc 0 (Str.find_last_of desc " " pos) = Some line /\
    Str.substr desc (Str.size_wrap (Str.find_last_of desc " " pos + 1)) Str.npos
    = Some rest /\
    (String.length rest < String.length desc)%nat.
Proof.
  intros Hlen Hfound. unfold Str.find_last_of in *.
  destruct (find_last_from_range " " desc 0 pos Str.npos) as [E | [[H0 H1] _]];
    [contradiction|].
  remember (Str.find_last_from " " desc 0 pos Str.npos) as r eqn:Hr.
  clear Hr.
  assert (Hw : Str.size_wrap (r + 1) = r + 1).
  { unfold Str.size_wrap. apply Z.mod_small.
    unfold Str.npos, Str.size_mod in *. lia. }
  rewrite Hw. unfold Str.substr.
  assert (0 <= Str.len desc) by (unfold Str.len; lia).
  destruct (Z.gtb_spec 0 (Str.len desc)); [lia|].
  destruct (Z.gtb_spec (r + 1) (Str.len desc)); [lia|].
  eexists. eexists. split; [reflexivity|]. split; [reflexivity|].
  pose proof (substring_shorter (Z.to_nat (r + 1))
                (Z.to_nat (Z.min Str.npos (Str.len desc - (r + 1)))) desc).
  unfold Str.len in *. lia.
Qed.

(** So the loop raises nothing, and it ends within as many turns as the
    text has characters or it never ends. *)
Lemma wrap_loop_no_raise (fuel : nat) (addSpace : Z) (desc os : string) :
  Str.len desc <= Str.npos ->
  wrap_loop fuel addSpace desc os <> Raised.
Proof.
  revert desc os. induction fuel as [|fuel IH]; intros desc os Hlen;
    cbn [wrap_loop];
    destruct (Str.size_wrap (Str.len desc + spaceArgDesc + addSpace)
              >? maxLineLen); try discriminate.
  set (pos := Str.size_wrap (maxLineLen - Str.size_wrap (spaceArgDesc + addSpace))).
  destruct (Z.eq_dec (Str.find_last_of desc " " pos) Str.npos) as [E | E].
  - rewrite E. change (Str.size_wrap (Str.npos + 1)) with 0.
    rewrite (substr_whole desc Hlen). now apply IH.
  - destruct (wrap_loop_turn desc pos Hlen E) as (line & rest & -> & -> & Hs).
    apply IH. unfold Str.len in *. lia.
Qed.

Lemma wrap_loop_ends_or_never (n : nat) (addSpace : Z) (desc os : string) :
  Str.len desc <= Str.npos ->
  (String.length desc < n)%nat ->
  wrap_loop n addSpace desc os = OutOfFuel ->
  forall (fuel : nat) (os' : string),
    wrap_loop fuel addSpace desc os' = OutOfFuel.
Proof.
  revert desc os. induction n as [|n IH]; intros desc os Hlen Hn H; [lia|].
  cbn [wrap_loop] in H.
  destruct (Str.size_wrap (Str.len desc + spaceArgDesc + addSpace)
            >? maxLineLen) eqn:Hlong; [|discriminate].
  set (pos := Str.size_wrap (maxLineLen - Str.size_wrap (spaceArgDesc + addSpace)))
    in *.
  destruct (Z.eq_dec (Str.find_last_of desc " " pos) Str.npos) as [E | E].
  - now apply wrap_loop_stuck.
  - destruct (wrap_loop_turn desc pos Hlen E) as (line & rest & Hl & Hr & Hs).
    rewrite Hl, Hr in H.
    assert (Hrest : Str.len rest <= Str.npos) by (unfold Str.len in *; lia).
    pose proof (IH rest _ Hrest ltac:(lia) H) as Hnever.
    intros [|fuel] os'; cbn [wrap_loop]; rewrite Hlong; [reflexivity|].
    fold pos. rewrite Hl, Hr. apply Hnever.
Qed.

Lemma wrap_loop_short (fuel : nat) (addSpace : Z) (desc os : string) :
  (Str.size_wrap (Str.len desc + spaceArgDesc + addSpace) >? maxLineLen) = false ->
  wrap_loop fuel addSpace desc os = Ok (desc, os).
Proof. intros H. destruct fuel; cbn [wrap_loop]; now rewrite H. Qed.

Lemma print_stuck (fuel : nat) (clo : CommandLineOption) (os : string) :
  m_isSeparator clo = false ->
  (Str.size_wrap (Str.len (full_desc clo) + spaceArgDesc + m_addSpace clo)
   >? maxLineLen) = true ->
  contains " " (full_desc clo) = false ->
  Str.len (full_desc clo) <= Str.npos ->
  CLO.print fuel clo os = OutOfFuel.
Proof.
  intros Hsep Hlong Hblank Hlen. unfold CLO.print. rewrite Hsep.
  rewrite wrap_loop_stuck; auto.
  unfold Str.find_last_of. now apply find_last_from_absent.
Qed.

Lemma print_short (fuel : nat) (clo : CommandLineOption) (os : string) :
  m_isSeparator clo = false ->
  (Str.size_wrap (Str.len (full_desc clo) + spaceArgDesc + m_addSpace clo)
   >? maxLineLen) = false ->
  CLO.print fuel clo os
  = Ok (((os ++ Str.put_left (m_addSpace clo) (m_arg clo ++ ", " ++ m_argAlt clo))
         ++ Str.put_left spaceArgDesc "") ++ full_desc clo ++ Str.nl).
Proof.
  intros Hsep Hshort. unfold CLO.print. rewrite Hsep.
  now rewrite wrap_loop_short.
Qed.

(** C9, at the option [url_option]: the description has no blank, so
    the search of the wrapping loop fails at every turn and the loop
    never ends, whatever the number of turns allowed. *)
Theorem C9_wrap_loop_never_ends :
  forall (fuel : nat) (os : string), CLO.print fuel url_option os = OutOfFuel.
Proof.
  intros fuel os. apply print_stuck; try reflexivity.
  vm_compute. discriminate.
Qed.

(** The help path of [parse]: it is taken before the required options
    are looked at, and ends in [exit(0)] when [printHelp] returns. *)
Lemma parse_help_first (basename : option string -> string) (fuel : nat)
    (rm : bool) (p p' : CommandLineParser) (w w' : World)
    (opts : list CommandLineOption) (any : bool) :
  scan p w = Ok (opts, any) ->
  (Parser.isSet (with_options opts p) (m_helpOpt p)
   || (negb any && rm))%bool = true ->
  printHelp basename fuel (with_options opts p) w = Ok (p', w') ->
  parse basename fuel rm p w = Exit 0 w'.
Proof.
  intros Hs Hc Hp. unfold parse. rewrite Hs. cbn [bind].
  change (m_helpOpt (with_options opts p)) with (m_helpOpt p).
  now rewrite Hc, Hp.
Qed.

(** With no option registered, [printHelp] dereferences [end()]. *)
Lemma parse_no_option (basename : option string -> string) (fuel : nat)
    (w : World) :
  parse basename fuel true (create 1 ["prog"] "" "") w = Fault.
Proof. reflexivity. Qed.

(** C4, at a parser with the help option and [url_option], called with
    [-h]: the help path is taken, and [printHelp] never returns, so
    [exit(0)] is never reached. *)
Theorem C4_help_never_exits :
  forall (basename : option string -> string) (fuel : nat) (w : World),
    parse basename fuel true
      (addOption url_option (addHelpOption (create 2 ["prog"; "-h"] "" ""))) w
    = OutOfFuel.
Proof.
  intros basename fuel w. unfold parse.
  set (p := addOption url_option (addHelpOption (create 2 ["prog"; "-h"] "" ""))).
  assert (Hs : scan p w = Ok ([with_set true (m_helpOpt p); url_option], true))
    by reflexivity.
  rewrite Hs. cbn [bind].
  change (Parser.isSet _ _ || _)%bool with true. cbv iota.
  unfold printHelp.
  change (updateAddSpaces _)
    with (@Ok (list CommandLineOption)
            [setSpaceAdd 10 (with_set true (m_helpOpt p));
             setSpaceAdd 10 url_option]).
  cbn [bind print_options].
  rewrite print_short by reflexivity. cbn [bind].
  rewrite print_stuck; try reflexivity.
  vm_compute. discriminate.
Qed.

(** ** The tokens of the scan: flags and values *)









(** * Further properties of the code *)

(** ** The exits and the return of [parse] *)

Lemma wrap_loop_extends (fuel : nat) (addSpace : Z) (desc os desc' os' : string) :
  wrap_loop fuel addSpace desc os = Ok (desc', os') ->
  exists t, os' = os ++ t.
Proof.
  revert desc os. induction fuel as [|fuel IH]; intros desc os H;
    cbn [wrap_loop] in H;
    destruct (Str.size_wrap (Str.len desc + spaceArgDesc + addSpace)
              >? maxLineLen); try discriminate;
    try (injection H as <- <-; exists ""; now rewrite append_empty_r).
  destruct (Str.substr desc 0 _) as [line|]; [|discriminate].
  destruct (Str.substr desc _ Str.npos) as [rest|]; [|discriminate].
  apply IH in H as [t ->]. rewrite !append_assoc. eauto.
Qed.

Lemma print_extends (fuel : nat) (clo : CommandLineOption) (os os' : string) :
  CLO.print fuel clo os = Ok os' -> exists t, os' = os ++ t.
Proof.
  unfold CLO.print. destruct (m_isSeparator clo).
  - injection 1 as <-. eauto.
  - destruct (wrap_loop fuel (m_addSpace clo) (full_desc clo) _)
      as [[d o1]| | | |] eqn:E; cbn; try discriminate.
    injection 1 as <-. apply wrap_loop_extends in E as [t ->].
    rewrite !append_assoc. eauto.
Qed.

Lemma print_options_extends (fuel : nat) (opts : list CommandLineOption)
    (os os' : string) :
  print_options fuel opts os = Ok os' -> exists t, os' = os ++ t.
Proof.
  revert os. induction opts as [|o opts IH]; intros os; cbn.
  - injection 1 as <-. exists "". now rewrite append_empty_r.
  - destruct (CLO.print fuel o os) as [o1| | | |] eqn:E; cbn; try discriminate.
    intros H. apply IH in H as [t ->]. apply print_extends in E as [t1 ->].
    rewrite append_assoc. eauto.
Qed.

Lemma printHelp_streams (basename : option string -> string) (fuel : nat)
    (p p' : CommandLineParser) (w w' : World) :
  printHelp basename fuel p w = Ok (p', w') ->
  cerr w' = cerr w /\ exists t, cout w' = cout w ++ t.
Proof.
  unfold printHelp. destruct (updateAddSpaces (m_options p)) as [opts| | | |];
    cbn; try discriminate.
  destruct (print_options fuel opts _) as [os| | | |] eqn:E; cbn;
    try discriminate.
  injection 1 as <- <-. cbn. split; [reflexivity|].
  apply print_options_extends in E as [t ->]. rewrite append_assoc. eauto.
Qed.

Lemma scan_options_exit (p : CommandLineParser) (w : World) (str : string)
    opts i any st w' :
  scan_options p w str opts i any = Exit st w' ->
  st = -1 /\ exists o, w' = to_cerr (starved_msg o) w.
Proof.
  revert i any. induction opts as [|o opts IH]; intros i any; cbn;
    [discriminate|].
  destruct (check str o) as [hit o1].
  destruct hit; [destruct (hasValue o1)|].
  - destruct (i + 1 >=? m_argc p); [injection 1 as <- <-; eauto|].
    destruct (argv_at p (i + 1)); [|discriminate].
    destruct (scan_options p w str opts (i + 1) true) as [[? [? ?]]| | | |] eqn:E;
      cbn; try discriminate.
    injection 1 as <- <-. eapply IH; eauto.
  - destruct (scan_options p w str opts i true) as [[? [? ?]]| | | |] eqn:E;
      cbn; try discriminate.
    injection 1 as <- <-. eapply IH; eauto.
  - destruct (scan_options p w str opts i any) as [[? [? ?]]| | | |] eqn:E;
      cbn; try discriminate.
    injection 1 as <- <-. eapply IH; eauto.
Qed.

Lemma scan_args_exit (p : CommandLineParser) (w : World) (f : nat)
    opts i any st w' :
  scan_args p w f opts i any = Exit st w' ->
  st = -1 /\ exists o, w' = to_cerr (starved_msg o) w.
Proof.
  revert opts i any. induction f as [|f IH]; intros opts i any; cbn;
    destruct (i <? m_argc p); try discriminate.
  destruct (argv_at p i) as [str|]; [|discriminate].
  destruct (scan_options p w str opts i any)
    as [[opts' [i' any']]| | | |] eqn:Es; cbn; try discriminate.
  - apply IH.
  - injection 1 as <- <-. eapply scan_options_exit; eauto.
Qed.

Lemma lines_missing_nonempty (l : list CommandLineOption) :
  l <> [] -> lines (map missing_msg l) <> "".
Proof. destruct l as [|o l]; [congruence | discriminate]. Qed.

Lemma to_cout_app (a b : string) (w : World) :
  to_cout b (to_cout a w) = to_cout (a ++ b) w.
Proof. unfold to_cout; cbn. now rewrite append_assoc. Qed.

Lemma printVersion_banner (p : CommandLineParser) (w : World) :
  printVersion p w = to_cout (banner p) w.
Proof.
  unfold printVersion, banner.
  destruct (m_programName p) as [|a n], (m_programVersion p) as [|b v];
    cbn [Str.empty negb andb]; rewrite ?to_cout_app; cbn [append];
    rewrite ?append_empty_r, ?append_assoc; reflexivity.
Qed.

Lemma wrap_loop_no_exit (fuel : nat) (addSpace : Z) (desc os : string) st w :
  wrap_loop fuel addSpace desc os <> Exit st w.
Proof.
  revert desc os. induction fuel as [|fuel IH]; intros desc os;
    cbn [wrap_loop];
    destruct (Str.size_wrap (Str.len desc + spaceArgDesc + addSpace)
              >? maxLineLen); try discriminate.
  destruct (Str.substr desc 0 _) as [line|]; [|discriminate].
  destruct (Str.substr desc _ Str.npos) as [rest|]; [|discriminate].
  apply IH.
Qed.

Lemma print_options_no_exit (fuel : nat) (opts : list CommandLineOption)
    (os : string) st w :
  print_options fuel opts os <> Exit st w.
Proof.
  revert os. induction opts as [|o opts IH]; intros os; cbn; [discriminate|].
  unfold CLO.print. destruct (m_isSeparator o); cbn; [apply IH|].
  pose proof (wrap_loop_no_exit fuel (m_addSpace o) (full_desc o)
    ((os ++ Str.put_left (m_addSpace o) (m_arg o ++ ", " ++ m_argAlt o))
     ++ Str.put_left spaceArgDesc "") st w) as Hn.
  destruct (wrap_loop fuel (m_addSpace o) (full_desc o) _)
    as [[d o1]| | | |]; cbn; try discriminate; [apply IH | congruence].
Qed.

Lemma printHelp_no_exit (basename : option string -> string) (fuel : nat)
    (p : CommandLineParser) (w : World) st w' :
  printHelp basename fuel p w <> Exit st w'.
Proof.
  unfold printHelp. unfold updateAddSpaces.
  destruct (max_element (m_options p)); cbn; [|discriminate].
  pose proof (print_options_no_exit fuel
    (map (setSpaceAdd (getArgsLength c)) (m_options p))
    (cout w ++ "Usage: " ++ basename (argv_at p 0) ++ " option" ++ Str.nl ++ Str.nl)
    st w') as Hn.
  destruct (print_options fuel _ _); cbn; try discriminate. congruence.
Qed.

(** X1: [parse] ends the process with status 0 or -1 only.  With 0
    (help or version) nothing was written to the error stream and the
    output stream was only appended to; with -1 (an option without its
    value, or required options not set) nothing was written to the output
    stream and a message was appended to the error stream. *)
Theorem X1_parse_exit_statuses (basename : option string -> string)
    (fuel : nat) (rm : bool) (p : CommandLineParser) (w w' : World) (st : Z) :
  parse basename fuel rm p w = Exit st w' ->
  (st = 0 /\ cerr w' = cerr w /\ exists t, cout w' = cout w ++ t)
  \/ (st = -1 /\ cout w' = cout w /\
      exists t, t <> "" /\ cerr w' = cerr w ++ t).
Proof.
  unfold parse, scan.
  destruct (scan_args p w (Z.to_nat (m_argc p)) (m_options p) 1 false)
    as [[opts any]| | | |] eqn:Es; cbn [bind]; try discriminate.
  - destruct (_ || _)%bool.
    + pose proof (printHelp_no_exit basename fuel (with_options opts p) w)
        as Hne.
      destruct (printHelp basename fuel (with_options opts p) w)
        as [[p1 w1]|st1 w1| | |] eqn:Eh; cbn; try discriminate;
        [|intros _; exfalso; now apply (Hne st1 w1)].
      injection 1 as <- <-. left.
      apply printHelp_streams in Eh. destruct Eh as [He Ho].
      split; [reflexivity|]. split; assumption.
    + destruct (Parser.isSet _ _).
      * injection 1 as <- <-. left. rewrite printVersion_banner. cbn. eauto.
      * change (m_options (with_options opts p)) with opts.
        rewrite report_missing_spec. cbn [andb].
        destruct (forallb (fun o => negb (is_missing o)) opts) eqn:Ef; cbn;
          [discriminate|].
        injection 1 as <- <-. right. split; [reflexivity|].
        split; [reflexivity|]. eexists. split; [|reflexivity].
        apply lines_missing_nonempty. intros Hnil.
        apply forallb_not_missing in Hnil. congruence.
  - injection 1 as <- <-. apply scan_args_exit in Es as (-> & o & ->).
    right. split; [reflexivity|]. split; [reflexivity|].
    exists (starved_msg o). split; [discriminate | reflexivity].
Qed.

Lemma X1_parse_exit_statuses_witness :
  let f := CLO_plain "-f" "--file" "Input file" HasValue_Yes Required_Yes in
  let p := addOption f (addHelpOption (create 2 ["prog"; "-f"] "" "")) in
  exists w', parse (fun _ => "prog") 0 true p (mkWorld "" "") = Exit (-1) w'
             /\ cout w' = "".
Proof.
  intros f p.
  destruct (parse (fun _ => "prog") 0 true p (mkWorld "" ""))
    as [?|st w'| | |] eqn:E; try (vm_compute in E; discriminate E).
  destruct (X1_parse_exit_statuses _ _ _ _ _ _ _ E)
    as [(-> & _) | (-> & Hout & _)].
  - vm_compute in E. discriminate E.
  - exists w'. split; [reflexivity | exact Hout].
Defined.

Lemma turns_hit_set (p : CommandLineParser) (str : string) k opts opts' :
  turns p str k opts opts' ->
  existsb (fun o => fst (check str o)) opts = true ->
  exists j o', nth_error opts' j = Some o' /\ m_set o' = true.
Proof.
  induction 1 as [k | k o o' rest rest' Ht Hts IH]; cbn; [discriminate|].
  destruct (fst (check str o)) eqn:Hc; cbn.
  - intros _. exists 0%nat, o'. split; [reflexivity|].
    destruct Ht; [congruence | reflexivity | reflexivity].
  - intros H. destruct (IH H) as (j & x & Hj & Hx). now exists (S j), x.
Qed.

Lemma scan_args_any (p : CommandLineParser) (w : World) (f : nat)
    opts i any optsF anyF :
  scan_args p w f opts i any = Ok (optsF, anyF) ->
  anyF = true ->
  any = true \/ exists j o, nth_error optsF j = Some o /\ m_set o = true.
Proof.
  revert opts i any. induction f as [|f IH]; intros opts i any H Hany;
    cbn in H; destruct (i <? m_argc p); try discriminate;
    try (injection H as <- <-; now left).
  destruct (argv_at p i) as [str|]; [|discriminate].
  destruct (scan_options p w str opts i any)
    as [[opts' [i' any']]| | | |] eqn:Es; cbn in H; try discriminate.
  apply scan_options_ok in Es as (Ht & _ & Hany').
  destruct (IH _ _ _ H Hany) as [Ha | Hset]; [|now right].
  rewrite Hany' in Ha. apply orb_true_iff in Ha as [Ha | Ha]; [now left|].
  right. destruct (turns_hit_set p str i opts opts' Ht Ha) as (j & o & Hj & Ho).
  exists j, o. split; [|exact Ho].
  eapply scan_args_keep_set; eauto.
Qed.

(** X2: when [parse] returns, nothing was written to either stream; the
    parser holds the same options in the same order with their
    declarations, whatever else is as it was; every required option is
    set (matched, or with a default); neither the help nor the version
    option is set; and, when a match was required, some option was
    matched. *)
Theorem X2_parse_return (basename : option string -> string)
    (fuel : nat) (rm : bool) (p p' : CommandLineParser) (w w' : World) :
  parse basename fuel rm p w = Ok (p', w') ->
  w' = w /\
  p' = with_options (m_options p') p /\
  Forall2 same_decl (m_options p) (m_options p') /\
  (forall o, In o (m_options p') -> isRequired o = true -> CLO.isSet o = true) /\
  Parser.isSet p' (m_helpOpt p) = false /\
  Parser.isSet p' (m_verOpt p) = false /\
  (rm = true -> exists o, In o (m_options p') /\ m_set o = true).
Proof.
  unfold parse.
  destruct (scan p w) as [[opts any]| | | |] eqn:Es; cbn [bind];
    try discriminate.
  change (m_helpOpt (with_options opts p)) with (m_helpOpt p).
  change (m_verOpt (with_options opts p)) with (m_verOpt p).
  destruct (Parser.isSet (with_options opts p) (m_helpOpt p)) eqn:Eh;
    cbn [orb].
  { destruct (printHelp basename fuel (with_options opts p) w)
      as [[? ?]| | | |]; cbn; discriminate. }
  destruct (negb any && rm)%bool eqn:Ea.
  { destruct (printHelp basename fuel (with_options opts p) w)
      as [[? ?]| | | |]; cbn; discriminate. }
  destruct (Parser.isSet (with_options opts p) (m_verOpt p)) eqn:Ev;
    [discriminate|].
  change (m_options (with_options opts p)) with opts.
  rewrite report_missing_spec. cbn [andb].
  destruct (forallb (fun o => negb (is_missing o)) opts) eqn:Ef; cbn;
    [|discriminate].
  injection 1 as <- <-. cbn [m_options with_options].
  split.
  { apply forallb_not_missing in Ef. rewrite Ef. cbn. apply to_cerr_empty. }
  split; [reflexivity|].
  split; [unfold scan in Es; eapply scan_args_same_decl; eauto|].
  split.
  { intros o Hin Hreq. rewrite forallb_forall in Ef. specialize (Ef o Hin).
    unfold is_missing in Ef. rewrite Hreq in Ef. cbn in Ef.
    now apply negb_true_iff, negb_false_iff in Ef. }
  split; [exact Eh|]. split; [exact Ev|].
  intros ->. rewrite andb_true_r in Ea. apply negb_false_iff in Ea.
  unfold scan in Es.
  destruct (scan_args_any _ _ _ _ _ _ _ _ Es Ea) as [? | (j & o & Hj & Ho)];
    [discriminate|].
  exists o. split; [eapply nth_error_In; eauto | exact Ho].
Qed.

Lemma X2_parse_return_witness :
  let f := CLO_plain "-f" "--file" "Input file" HasValue_Yes Required_Yes in
  let p := addOption f (addHelpOption (create 3 ["prog"; "-f"; "in.txt"] "" "")) in
  exists p' w',
    parse (fun _ => "prog") 0 true p (mkWorld "" "") = Ok (p', w') /\
    w' = mkWorld "" "" /\
    exists o, In o (m_options p') /\ m_set o = true.
Proof.
  intros f p.
  destruct (parse (fun _ => "prog") 0 true p (mkWorld "" ""))
    as [[p' w']| | | |] eqn:E; try (vm_compute in E; discriminate E).
  destruct (X2_parse_return _ _ _ _ _ _ _ E) as (Hw & _ & _ & _ & _ & _ & Hm).
  exists p', w'. split; [reflexivity|]. split; [exact Hw | exact (Hm eq_refl)].
Defined.

(** ** The version path *)

(** X3: when the scan is over, help is not due and the version option
    is set, [parse] writes the banner to the output stream and ends the
    process with status 0, whether or not required options are missing.
    The banner is "name - version", or the one of the two that is not
    empty, followed by a line end. *)
Theorem X3_version_path (basename : option string -> string)
    (fuel : nat) (rm : bool) (p : CommandLineParser) (w : World)
    (opts : list CommandLineOption) (any : bool) :
  scan p w = Ok (opts, any) ->
  (Parser.isSet (with_options opts p) (m_helpOpt p)
   || (negb any && rm))%bool = false ->
  Parser.isSet (with_options opts p) (m_verOpt p) = true ->
  parse basename fuel rm p w
  = Exit 0 (mkWorld (cout w ++ banner p) (cerr w)) /\
  (m_programName p <> "" -> m_programVersion p <> "" ->
   banner p = m_programName p ++ " - " ++ m_programVersion p ++ Str.nl) /\
  (m_programVersion p = "" -> banner p = m_programName p ++ Str.nl) /\
  (m_programName p = "" -> banner p = m_programVersion p ++ Str.nl).
Proof.
  intros Hs Hh Hv. split; [|split; [|split]].
  - unfold parse. rewrite Hs. cbn [bind].
    change (m_helpOpt (with_options opts p)) with (m_helpOpt p).
    change (m_verOpt (with_options opts p)) with (m_verOpt p).
    rewrite Hh, Hv. rewrite printVersion_banner. reflexivity.
  - unfold banner. intros Hn Hver.
    apply empty_false_iff in Hn, Hver. now rewrite Hn, Hver.
  - unfold banner. intros ->. cbn. now rewrite andb_false_r.
  - unfold banner. intros ->. reflexivity.
Qed.

Lemma X3_version_path_witness :
  let f := CLO_plain "-f" "--file" "Input file" HasValue_Yes Required_Yes in
  let p := addVersionOption
             (addOption f (addHelpOption (create 2 ["prog"; "-v"] "tool" "1.2"))) in
  parse (fun _ => "prog") 0 true p (mkWorld "" "")
  = Exit 0 (mkWorld ("tool - 1.2" ++ Str.nl) "").
Proof.
  intros f p.
  destruct (scan p (mkWorld "" "")) as [[opts any]| | | |] eqn:E;
    try (vm_compute in E; discriminate E).
  assert (E' := E). vm_compute in E'. injection E' as <- <-.
  destruct (X3_version_path (fun _ => "prog") 0 true p (mkWorld "" "")
              _ _ E eq_refl eq_refl) as (H & _).
  exact H.
Defined.

(** ** Tokens that no option accepts *)

Lemma scan_options_refused (p : CommandLineParser) (w : World)
    (str : string) opts i any :
  (forall o, In o opts -> fst (check str o) = false) ->
  scan_options p w str opts i any = Ok (opts, (i, any)).
Proof.
  revert i any. induction opts as [|o opts IH]; intros i any H; cbn;
    [reflexivity|].
  pose proof (H o (or_introl eq_refl)) as Ho. rewrite check_fst in Ho.
  rewrite check_eq, Ho, IH; [reflexivity|].
  intros x Hx. apply H. now right.
Qed.

Lemma with_options_same (p : CommandLineParser) :
  with_options (m_options p) p = p.
Proof. now destruct p. Qed.

(** X4: when no option accepts any of the tokens from index 1 on (each
    is unknown to every option, or names options that are already set),
    and in particular when there is no token, the scan changes no option
    and reports no match; [parse] then shows the help screen if a match
    is required, and goes on to the version and required-option checks
    if not. *)
Theorem X4_unknown_tokens (basename : option string -> string)
    (fuel : nat) (p : CommandLineParser) (w : World) :
  (forall i, 1 <= i < m_argc p ->
     exists str, argv_at p i = Some str /\
                 forall o, In o (m_options p) -> fst (check str o) = false) ->
  scan p w = Ok (m_options p, false) /\
  parse basename fuel true p w
  = ('(_, w1) <- printHelp basename fuel p w ;; Exit 0 w1) /\
  (Parser.isSet p (m_helpOpt p) = false ->
   Parser.isSet p (m_verOpt p) = false ->
   (forall o, In o (m_options p) -> isRequired o = true -> CLO.isSet o = true) ->
   parse basename fuel false p w = Ok (p, w)).
Proof.
  intros H.
  assert (Hs : scan p w = Ok (m_options p, false)).
  { unfold scan.
    assert (G : forall f i, 1 <= i ->
              (Z.to_nat (m_argc p - i) <= f)%nat ->
              scan_args p w f (m_options p) i false = Ok (m_options p, false)).
    { induction f as [|f IH]; intros i Hi Hf; cbn;
        destruct (Z.ltb_spec i (m_argc p)); try reflexivity; try lia.
      destruct (H i ltac:(lia)) as (str & -> & Hr).
      rewrite (scan_options_refused p w str _ i false Hr). cbn.
      apply IH; lia. }
    apply G; lia. }
  split; [exact Hs|]. split.
  - unfold parse. rewrite Hs. cbn [bind]. rewrite with_options_same.
    now rewrite orb_true_r.
  - intros Hh Hv Hreq. unfold parse. rewrite Hs. cbn [bind].
    rewrite with_options_same, Hh, Hv. cbn.
    rewrite report_missing_spec. cbn [andb].
    assert (Hf : forallb (fun o => negb (is_missing o)) (m_options p) = true).
    { apply forallb_forall. intros o Hin. unfold is_missing.
      destruct (isRequired o) eqn:Er; [|reflexivity].
      now rewrite (Hreq o Hin Er). }
    rewrite Hf. cbn. apply forallb_not_missing in Hf. rewrite Hf. cbn.
    now rewrite to_cerr_empty.
Qed.

Lemma X4_unknown_tokens_witness :
  let g := CLO_default "-g" "--gain" "Gain" "1" Required_Yes in
  let p := addOption g (addHelpOption (create 3 ["prog"; "in.txt"; "out.txt"] "" "")) in
  scan p (mkWorld "" "") = Ok (m_options p, false) /\
  parse (fun _ => "prog") 0 false p (mkWorld "" "") = Ok (p, mkWorld "" "").
Proof.
  intros g p.
  assert (H : forall i, 1 <= i < m_argc p ->
            exists str, argv_at p i = Some str /\
              forall o, In o (m_options p) -> fst (check str o) = false).
  { intros i Hi. cbn in Hi.
    assert (Hc : i = 1 \/ i = 2) by lia.
    destruct Hc as [-> | ->]; eexists; (split; [reflexivity|]);
      intros o [<- | [<- | []]]; reflexivity. }
  destruct (X4_unknown_tokens (fun _ => "prog") 0 p (mkWorld "" "") H)
    as (Hs & _ & Hp).
  split; [exact Hs|]. apply Hp; try reflexivity.
  intros o [<- | [<- | []]]; [discriminate | reflexivity].
Defined.

(** ** The first match wins *)

(** X5: an option that is set when the outer loop comes to a token is,
    at the end of the scan, exactly as it was then: a later repetition
    of its flag neither matches it again nor replaces its value. *)
Theorem X5_first_match_wins (p : CommandLineParser) (w : World) (i : Z)
    (opts : list CommandLineOption) (any : bool) (j : nat)
    (o : CommandLineOption) (optsF : list CommandLineOption) (anyF : bool) :
  loop_head p w i opts any ->
  nth_error opts j = Some o ->
  m_set o = true ->
  scan p w = Ok (optsF, anyF) ->
  nth_error optsF j = Some o.
Proof.
  intros Hh Hj Hs Hscan.
  destruct (loop_head_scan p w i opts any Hh) as [_ Heq].
  rewrite Heq in Hscan.
  eapply scan_args_keep_set; eauto.
Qed.

Lemma X5_first_match_wins_witness :
  let f := CLO_plain "-f" "--file" "Input file" HasValue_Yes Required_No in
  let p := addOption f (create 5 ["prog"; "-f"; "a"; "-f"; "b"] "" "") in
  exists optsF anyF,
    scan p (mkWorld "" "") = Ok (optsF, anyF) /\
    nth_error optsF 0 = Some (setValue "a" (with_set true f)).
Proof.
  intros f p.
  destruct (scan p (mkWorld "" "")) as [[optsF anyF]| | | |] eqn:E;
    try (vm_compute in E; discriminate E).
  exists optsF, anyF. split; [reflexivity|].
  assert (Hh : loop_head p (mkWorld "" "") (2 + 1)
                 [setValue "a" (with_set true f)] true).
  { apply (head_next p (mkWorld "" "") 1 (m_options p) false "-f"
             [setValue "a" (with_set true f)] 2 true (head_first p _));
      reflexivity. }
  exact (X5_first_match_wins p (mkWorld "" "") (2 + 1) _ true 0%nat
           (setValue "a" (with_set true f)) optsF anyF
           Hh eq_refl eq_refl E).
Defined.

(** ** The help flag *)

(** X6: when the first registered option is the help option (as after
    [addHelpOption]), takes no value, and accepts the token at index 1,
    a scan that completes leaves it set, so that [parse] takes the help
    path whatever else is on the command line and whether or not a match
    is required. *)
Theorem X6_help_flag (basename : option string -> string) (fuel : nat)
    (rm : bool) (p : CommandLineParser) (w : World)
    (h : CommandLineOption) (rest : list CommandLineOption) (str : string)
    (opts : list CommandLineOption) (any : bool) :
  m_options p = h :: rest ->
  same_decl h (m_helpOpt p) ->
  hasValue h = false ->
  1 < m_argc p ->
  argv_at p 1 = Some str ->
  fst (check str h) = true ->
  scan p w = Ok (opts, any) ->
  Parser.isSet (with_options opts p) (m_helpOpt p) = true /\
  parse basename fuel rm p w
  = ('(_, w1) <- printHelp basename fuel (with_options opts p) w ;; Exit 0 w1).
Proof.
  intros Hopts Hd Hv Hargc Hstr Hc Hscan.
  assert (Hset : Parser.isSet (with_options opts p) (m_helpOpt p) = true).
  { destruct (loop_head_scan p w 1 _ false (head_first p w)) as [_ Heq].
    rewrite Heq in Hscan.
    destruct (Z.to_nat (m_argc p - 1)) as [|f] eqn:Ef; [lia|].
    rewrite (scan_args_step p w f _ 1 false str Hargc Hstr) in Hscan.
    destruct (scan_options p w str (m_options p) 1 false)
      as [[opts' [i' any']]| | | |] eqn:Es; cbn in Hscan; try discriminate.
    apply scan_options_ok in Es as (Ht & _).
    rewrite Hopts in Ht.
    destruct (turns_nth p str 1 _ _ Ht 0%nat h eq_refl) as (h' & Hh' & Hturn).
    assert (Eh' : h' = with_set true h)
      by (destruct Hturn; [congruence | reflexivity | unfold hasValue in *; congruence]).
    subst h'.
    pose proof (scan_args_keep_set p w f opts' _ _ opts any Hscan 0%nat _
                  Hh' eq_refl) as H0.
    unfold Parser.isSet, find_option.
    change (m_options (with_options opts p)) with opts.
    destruct opts as [|x opts]; [discriminate|]. cbn in H0.
    injection H0 as ->. cbn.
    assert (He : CLO_eqb (with_set true h) (m_helpOpt p) = true)
      by (apply CLO_eqb_iff; exact Hd).
    change (m_helpOpt (with_options (with_set true h :: opts) p))
      with (m_helpOpt p).
    rewrite He. reflexivity. }
  split; [exact Hset|].
  unfold parse. rewrite Hscan. cbn [bind].
  change (m_helpOpt (with_options opts p)) with (m_helpOpt p).
  now rewrite Hset.
Qed.

Lemma X6_help_flag_witness :
  let f := CLO_plain "-f" "--file" "Input file" HasValue_Yes Required_Yes in
  let p := addOption f (addHelpOption (create 3 ["prog"; "--help"; "-x"] "" "")) in
  exists opts any,
    scan p (mkWorld "" "") = Ok (opts, any) /\
    Parser.isSet (with_options opts p) (m_helpOpt p) = true.
Proof.
  intros f p.
  destruct (scan p (mkWorld "" "")) as [[opts any]| | | |] eqn:E;
    try (vm_compute in E; discriminate E).
  exists opts, any. split; [reflexivity|].
  assert (Hd : same_decl (m_helpOpt p) (m_helpOpt p)) by (repeat split).
  exact (proj1 (X6_help_flag (fun _ => "prog") 0 true p (mkWorld "" "")
                  (m_helpOpt p) [f] "--help" opts any
                  eq_refl Hd eq_refl eq_refl eq_refl eq_refl E)).
Defined.

(** ** The shared column of the help screen *)

Lemma max_from_spec (largest : CommandLineOption)
    (rest : list CommandLineOption) :
  In (max_from largest rest) (largest :: rest) /\
  forall o, In o (largest :: rest) ->
            getArgsLength o <= getArgsLength (max_from largest rest).
Proof.
  revert largest. induction rest as [|x rest IH]; intros largest; cbn [max_from].
  - split; [now left|]. intros o [<- | []]. lia.
  - destruct (Z.ltb_spec (getArgsLength largest) (getArgsLength x)).
    + destruct (IH x) as [Hin Hmax]. split.
      * right. exact Hin.
      * intros o [<- | Ho]; [|now apply Hmax].
        specialize (Hmax x (or_introl eq_refl)). lia.
    + destruct (IH largest) as [Hin Hmax]. split.
      * destruct Hin as [<- | Hin]; [now left | right; now right].
      * intros o [<- | [<- | Ho]].
        -- apply Hmax. now left.
        -- specialize (Hmax largest (or_introl eq_refl)). lia.
        -- apply Hmax. now right.
Qed.

(** X7: on an empty collection [updateAddSpaces] dereferences [end()];
    otherwise it gives every option the same column width, the largest
    [getArgsLength] of the collection (reached by one of the options, not
    less than that of any), and changes nothing else. *)
Theorem X7_updateAddSpaces (opts : list CommandLineOption) :
  (opts = [] -> updateAddSpaces opts = Fault) /\
  (opts <> [] ->
   exists m,
     updateAddSpaces opts = Ok (map (setSpaceAdd m) opts) /\
     (forall o, In o opts -> getArgsLength o <= m) /\
     (exists o, In o opts /\ getArgsLength o = m) /\
     (forall o, In o opts ->
        m_addSpace (setSpaceAdd m o) = m /\
        same_decl (setSpaceAdd m o) o /\
        CLO.isSet (setSpaceAdd m o) = CLO.isSet o /\
        CLO.getValue (setSpaceAdd m o) = CLO.getValue o /\
        getArgsLength (setSpaceAdd m o) = getArgsLength o)).
Proof.
  split; [now intros -> |].
  destruct opts as [|x rest]; [congruence|]. intros _.
  destruct (max_from_spec x rest) as [Hin Hmax].
  exists (getArgsLength (max_from x rest)).
  split; [reflexivity|]. split; [exact Hmax|]. split; [eauto|].
  intros o _. repeat split.
Qed.

Lemma X7_updateAddSpaces_witness :
  let a := CLO_plain "-h" "--help" "Displays Help" HasValue_No Required_No in
  let b := CLO_plain "-o" "--output" "Output file" HasValue_Yes Required_No in
  updateAddSpaces [a; b] = Ok [setSpaceAdd 12 a; setSpaceAdd 12 b].
Proof.
  intros a b.
  destruct (X7_updateAddSpaces [a; b]) as [_ H].
  destruct (H ltac:(discriminate)) as (m & -> & Hle & (o & Ho & Hm) & _).
  assert (Hb : 12 <= m) by (apply (Hle b); right; now left).
  assert (Hm12 : m = 12).
  { destruct Ho as [<- | [<- | []]]; vm_compute in Hm; subst m;
      [exfalso; apply Hb; reflexivity | reflexivity]. }
  now rewrite Hm12.
Defined.

Lemma spaces_length (n : nat) : String.length (Str.spaces n) = n.
Proof. induction n; cbn; congruence. Qed.

Lemma length_append (a b : string) :
  String.length (a ++ b) = (String.length a + String.length b)%nat.
Proof. induction a as [|c a IH]; cbn; [reflexivity | now rewrite IH]. Qed.

Lemma put_left_length (wd : Z) (s : string) :
  0 <= wd < 2 ^ 31 ->
  Str.len s <= wd ->
  Str.len (Str.put_left wd s) = wd.
Proof.
  intros Hw Hs. unfold Str.put_left, Str.to_int, Str.len in *.
  rewrite Z.mod_small by lia.
  destruct (Z.ltb_spec wd (2 ^ 31)); [|lia].
  rewrite length_append, spaces_length. lia.
Qed.

(** X8: for an entry that is no separator and whose two names fit the
    column width [m_addSpace] (as after [updateAddSpaces]), what
    [operator<<] writes starts with the names, padded with blanks to
    [m_addSpace + 4] characters: the descriptions of all the entries of a
    help screen start in the same column. *)
Theorem X8_help_columns (fuel : nat) (clo : CommandLineOption)
    (os os' : string) :
  m_isSeparator clo = false ->
  0 <= m_addSpace clo < 2 ^ 31 ->
  getArgsLength clo <= m_addSpace clo ->
  CLO.print fuel clo os = Ok os' ->
  exists pad text,
    os' = os ++ ((m_arg clo ++ ", " ++ m_argAlt clo) ++ Str.spaces pad) ++ text /\
    Str.len ((m_arg clo ++ ", " ++ m_argAlt clo) ++ Str.spaces pad)
    = m_addSpace clo + 4.
Proof.
  intros Hsep Hw Hfit. unfold CLO.print. rewrite Hsep.
  unfold getArgsLength in Hfit. rewrite Hsep in Hfit.
  set (argStr := m_arg clo ++ ", " ++ m_argAlt clo) in *.
  destruct (wrap_loop fuel (m_addSpace clo) (full_desc clo) _)
    as [[d o1]| | | |] eqn:E; cbn; try discriminate.
  injection 1 as <-. apply wrap_loop_extends in E as [t ->].
  pose proof (put_left_length (m_addSpace clo) argStr Hw Hfit) as Hlen.
  unfold Str.put_left in *.
  exists (Z.to_nat (Str.to_int (m_addSpace clo) - Str.len argStr) + 4)%nat,
         (t ++ d ++ Str.nl).
  split.
  - change (Str.spaces (Z.to_nat (Str.to_int spaceArgDesc - Str.len "")))
      with (Str.spaces 4).
    assert (Hsp : forall n, Str.spaces (n + 4) = Str.spaces n ++ Str.spaces 4).
    { induction n as [|n IH]; [reflexivity|]. cbn [Nat.add Str.spaces append].
      now rewrite IH. }
    rewrite Hsp. cbn [append]. now rewrite !append_assoc.
  - unfold Str.len in *. rewrite length_append, spaces_length in *. lia.
Qed.

Lemma X8_help_columns_witness :
  let a := setSpaceAdd 12
             (CLO_plain "-h" "--help" "Displays Help" HasValue_No Required_No) in
  exists pad text,
    CLO.print 0 a "" = Ok ((("-h, --help") ++ Str.spaces pad) ++ text) /\
    Str.len (("-h, --help") ++ Str.spaces pad) = 16.
Proof.
  intros a.
  destruct (CLO.print 0 a "") as [os'| | | |] eqn:E;
    try (vm_compute in E; discriminate E).
  destruct (X8_help_columns 0 a "" os' eq_refl) as (pad & text & -> & Hl);
    [cbn; lia | vm_compute; discriminate | exact E |].
  exists pad, text. split; [reflexivity | exact Hl].
Defined.

(** ** The lines of a wrapped description *)

Lemma find_last_from_char (c : ascii) (s : string) (i pos last : Z) :
  Str.find_last_from c s i pos last <> last ->
  exists pre post,
    s = pre ++ String c post /\
    Str.len pre = Str.find_last_from c s i pos last - i.
Proof.
  revert i last. induction s as [|a s IH]; intros i last; cbn [Str.find_last_from].
  - congruence.
  - destruct ((i <=? pos) && Ascii.eqb a c)%bool eqn:E.
    + apply andb_true_iff in E as [_ Ha]. apply Ascii.eqb_eq in Ha. subst a.
      intros _.
      destruct (Z.eq_dec (Str.find_last_from c s (i + 1) pos i) i) as [Hr | Hr].
      * exists "", s. rewrite Hr. split; [reflexivity|]. unfold Str.len. cbn. lia.
      * destruct (IH (i + 1) i Hr) as (pre & post & -> & Hl).
        exists (String c pre), post. split; [reflexivity|].
        unfold Str.len in *. cbn [String.length]. lia.
    + intros Hr. destruct (IH (i + 1) last Hr) as (pre & post & -> & Hl).
      exists (String a pre), post. split; [reflexivity|].
      unfold Str.len in *. cbn [String.length]. lia.
Qed.

Lemma substring_prefix (a b : string) :
  String.substring 0 (String.length a) (a ++ b) = a.
Proof. induction a as [|c a IH]; cbn; [now destruct b | now rewrite IH]. Qed.

Lemma substring_suffix (a b : string) :
  String.substring (String.length a) (String.length b) (a ++ b) = b.
Proof.
  induction a as [|c a IH]; cbn; [apply substring_all | exact IH].
Qed.

(** A turn of the wrapping loop that finds a blank cuts the text at it. *)
Lemma wrap_loop_cut (desc : string) (pos : Z) :
  Str.len desc <= Str.npos ->
  Str.find_last_of desc " " pos <> Str.npos ->
  exists line rest,
    Str.substr desc 0 (Str.find_last_of desc " " pos) = Some line /\
    Str.substr desc (Str.size_wrap (Str.find_last_of desc " " pos + 1)) Str.npos
    = Some rest /\
    desc = line ++ String " " rest /\
    Str.len line <= pos.
Proof.
  intros Hlen Hfound. unfold Str.find_last_of in *.
  destruct (find_last_from_range " " desc 0 pos Str.npos) as [E | [[H0 H1] H2]];
    [contradiction|].
  destruct (find_last_from_char " " desc 0 pos Str.npos Hfound)
    as (pre & post & Hd & Hpre).
  remember (Str.find_last_from " " desc 0 pos Str.npos) as r eqn:Hr.
  clear Hr. rewrite Z.sub_0_r in Hpre.
  assert (Hw : Str.size_wrap (r + 1) = r + 1).
  { unfold Str.size_wrap. apply Z.mod_small.
    unfold Str.npos, Str.size_mod in *. lia. }
  rewrite Hw. unfold Str.substr.
  assert (Hl : Str.len desc = r + 1 + Str.len post).
  { rewrite Hd. unfold Str.len in *. rewrite length_append. cbn [String.length]. lia. }
  assert (0 <= Str.len post) by (unfold Str.len; lia).
  destruct (Z.gtb_spec 0 (Str.len desc)); [lia|].
  destruct (Z.gtb_spec (r + 1) (Str.len desc)); [lia|].
  exists pre, post. split; [|split; [|split]].
  - f_equal. rewrite Z.sub_0_r, Z.min_l by lia.
    rewrite <- Hpre. unfold Str.len. rewrite Nat2Z.id. cbn [Z.to_nat].
    rewrite Hd. apply substring_prefix.
  - f_equal. rewrite Z.min_r by (unfold Str.npos, Str.size_mod in *; lia).
    replace (Str.len desc - (r + 1)) with (Str.len post) by lia.
    replace (Z.to_nat (r + 1)) with (String.length (pre ++ String " " ""))
      by (rewrite length_append; unfold Str.len in *; cbn [String.length]; lia).
    unfold Str.len. rewrite Nat2Z.id. rewrite Hd.
    replace (pre ++ String " " post) with ((pre ++ String " " "") ++ post)
      by (now rewrite append_assoc).
    apply substring_suffix.
  - exact Hd.
  - lia.
Qed.

(** X9: when the wrapping loop of [operator<<] ends, it has written
    lines, each followed by a line end and the indentation; no line is
    longer than the budget the search was given; the text left for the
    last line fits the line width; and the lines and that text, put back
    together with one blank between them, are the description: the loop
    drops the blank it breaks at and nothing else. *)
Theorem X9_wrap_lines (fuel : nat) (addSpace : Z) (desc os last os' : string) :
  Str.len desc <= Str.npos ->
  wrap_loop fuel addSpace desc os = Ok (last, os') ->
  exists ls,
    os' = os ++ wrapped (Str.put_left (Str.size_wrap (spaceArgDesc + addSpace)) "") ls /\
    join " " (ls ++ [last]) = desc /\
    Forall (fun l => Str.len l
                     <= Str.size_wrap (maxLineLen - Str.size_wrap (spaceArgDesc + addSpace)))
           ls /\
    Str.size_wrap (Str.len last + spaceArgDesc + addSpace) <= maxLineLen.
Proof.
  revert desc os. induction fuel as [|fuel IH]; intros desc os Hlen H;
    cbn [wrap_loop] in H;
    destruct (Z.gtb_spec (Str.size_wrap (Str.len desc + spaceArgDesc + addSpace))
                         maxLineLen) as [Hlong | Hshort];
    try discriminate;
    try (injection H as <- <-; exists []; cbn;
         rewrite append_empty_r; repeat split; [constructor | exact Hshort]).
  set (pos := Str.size_wrap (maxLineLen - Str.size_wrap (spaceArgDesc + addSpace)))
    in *.
  destruct (Z.eq_dec (Str.find_last_of desc " " pos) Str.npos) as [E | E].
  - exfalso.
    assert (Hl : (Str.size_wrap (Str.len desc + spaceArgDesc + addSpace)
                  >? maxLineLen) = true) by (apply Z.gtb_lt; lia).
    pose proof (wrap_loop_stuck addSpace desc Hl E Hlen (S fuel) os) as Hst.
    cbn [wrap_loop] in Hst. rewrite Hl in Hst. fold pos in Hst. congruence.
  - destruct (wrap_loop_cut desc pos Hlen E)
      as (line & rest & Hline & Hrest & Hd & Hfit).
    rewrite Hline, Hrest in H.
    assert (Hr : Str.len rest <= Str.npos).
    { rewrite Hd in Hlen. unfold Str.len in *. rewrite length_append in Hlen.
      cbn [String.length] in Hlen. lia. }
    destruct (IH rest _ Hr H) as (ls & -> & Hj & Hall & Hlast).
    exists (line :: ls). split; [|split; [|split]].
    + cbn [wrapped]. now rewrite !append_assoc.
    + rewrite Hd. cbn [app].
      destruct (ls ++ [last])%list as [|x xs] eqn:Ex;
        [destruct ls; discriminate|].
      change (join " " (line :: x :: xs))
        with (line ++ String " " (join " " (x :: xs))).
      now rewrite Hj.
    + constructor; assumption.
    + exact Hlast.
Qed.

Lemma X9_wrap_lines_witness :
  exists ls last os',
    wrap_loop 5 70 "one two three four five" "" = Ok (last, os') /\
    join " " (ls ++ [last]) = "one two three four five" /\
    Forall (fun l => Str.len l <= 6) ls.
Proof.
  destruct (wrap_loop 5 70 "one two three four five" "")
    as [[last os']| | | |] eqn:E; try (vm_compute in E; discriminate E).
  destruct (X9_wrap_lines 5 70 "one two three four five" "" last os')
    as (ls & _ & Hj & Hall & _); [vm_compute; discriminate | exact E |].
  exists ls, last, os'. split; [reflexivity|]. split; [exact Hj | exact Hall].
Defined.

(** ** When the wrapping loop ends *)

Lemma find_last_from_found (c : ascii) (pre post : string) (i pos last : Z) :
  i + Str.len pre <= pos ->
  i <= Str.find_last_from c (pre ++ String c post) i pos last
    < i + Str.len (pre ++ String c post).
Proof.
  revert i last. induction pre as [|a pre IH]; intros i last Hpos.
  - cbn [append Str.find_last_from]. unfold Str.len in Hpos. cbn in Hpos.
    assert (Hi : (i <=? pos) = true) by (apply Z.leb_le; lia).
    rewrite Hi, Ascii.eqb_refl. cbn [andb].
    assert (Hl : Str.len (String c post) = Str.len post + 1)
      by (unfold Str.len; cbn [String.length]; lia).
    assert (0 <= Str.len post) by (unfold Str.len; lia).
    destruct (find_last_from_range c post (i + 1) pos i) as [-> | [H1 _]]; lia.
  - assert (Hl : Str.len (String a (pre ++ String c post))
                 = Str.len (pre ++ String c post) + 1)
      by (unfold Str.len; cbn [String.length]; lia).
    assert (Hp : Str.len (String a pre) = Str.len pre + 1)
      by (unfold Str.len; cbn [String.length]; lia).
    cbn [append Str.find_last_from].
    destruct ((i <=? pos) && Ascii.eqb a c)%bool.
    + specialize (IH (i + 1) i ltac:(lia)). lia.
    + specialize (IH (i + 1) last ltac:(lia)). lia.
Qed.

Lemma contains_split (c : ascii) (s : string) :
  contains c s = true -> exists pre post, s = pre ++ String c post.
Proof.
  induction s as [|a s IH]; cbn; [discriminate|].
  destruct (Ascii.eqb a c) eqn:E; cbn.
  - apply Ascii.eqb_eq in E. subst a. intros _. now exists "", s.
  - intros H. destruct (IH H) as (pre & post & ->).
    now exists (String a pre), post.
Qed.

Lemma string_take (n : nat) (s : string) :
  (n <= String.length s)%nat ->
  exists a b, s = a ++ b /\ String.length a = n.
Proof.
  revert s. induction n as [|n IH]; intros s H.
  - now exists "", s.
  - destruct s as [|c s]; [cbn in H; lia|].
    destruct (IH s ltac:(cbn in H; lia)) as (a & b & -> & Ha).
    exists (String c a), b. cbn. now rewrite Ha.
Qed.

Lemma wrap_loop_ends (fuel : nat) (addSpace : Z) (desc os : string) :
  0 <= addSpace <= 76 ->
  no_long_word (Z.to_nat (76 - addSpace)) desc ->
  Str.len desc + 80 <= Str.npos ->
  (String.length desc <= fuel)%nat ->
  exists last os', wrap_loop fuel addSpace desc os = Ok (last, os').
Proof.
  intros Ha. revert desc os.
  assert (Hw : forall z, 0 <= z <= Str.npos -> Str.size_wrap z = z).
  { intros z Hz. unfold Str.size_wrap. apply Z.mod_small.
    unfold Str.npos, Str.size_mod in *. lia. }
  assert (Hnp : 80 <= Str.npos) by (unfold Str.npos, Str.size_mod; lia).
  induction fuel as [|fuel IH]; intros desc os Hword Hlen Hfuel;
    cbn [wrap_loop]; unfold spaceArgDesc, maxLineLen in *;
    rewrite (Hw (Str.len desc + 4 + addSpace)) by (unfold Str.len in *; lia);
    destruct (Z.gtb_spec (Str.len desc + 4 + addSpace) 80) as [Hlong | Hshort];
    eauto.
  - unfold Str.len in *. lia.
  - rewrite (Hw (4 + addSpace)), (Hw (80 - (4 + addSpace))) by lia.
    set (b := 80 - (4 + addSpace)) in *.
    assert (Hfound : Str.find_last_of desc " " b <> Str.npos).
    { destruct (string_take (S (Z.to_nat (76 - addSpace))) desc) as (wd & post & Hd & Hwd);
        [unfold Str.len in *; lia|].
      pose proof (Hword "" wd post Hd Hwd) as Hc.
      apply contains_split in Hc as (pre & post' & Hs).
      assert (Hpre : Str.len pre <= b).
      { rewrite Hs, length_append in Hwd. cbn [String.length] in Hwd.
        unfold Str.len, b. lia. }
      assert (Hd' : desc = pre ++ String " " (post' ++ post))
        by (rewrite Hd, Hs, append_assoc; reflexivity).
      unfold Str.find_last_of. rewrite Hd'.
      pose proof (find_last_from_found " " pre (post' ++ post) 0 b Str.npos
                    ltac:(lia)) as Hr.
      rewrite <- Hd' in *. lia. }
    destruct (wrap_loop_cut desc b ltac:(lia) Hfound)
      as (line & rest & -> & -> & Hd & _).
    assert (Hlr : String.length desc
                  = (String.length line + 1 + String.length rest)%nat).
    { rewrite Hd, length_append. cbn [String.length]. lia. }
    apply IH.
    + intros pre wd post Hr Hwd. apply (Hword (line ++ String " " pre) wd post).
      * rewrite Hd, Hr, append_assoc. reflexivity.
      * exact Hwd.
    + unfold Str.len in *. lia.
    + lia.
Qed.

(** X10: rendering ends for the ordinary entries.  When the column width
    is at most 76 and no word of the description (with its "(required)"
    and "DEFAULT:" parts) is longer than what is left of the 80 columns,
    [operator<<] returns, within as many turns of the loop as the
    description has characters. *)
Theorem X10_print_ends (fuel : nat) (clo : CommandLineOption) (os : string) :
  0 <= m_addSpace clo <= 76 ->
  no_long_word (Z.to_nat (76 - m_addSpace clo)) (full_desc clo) ->
  Str.len (full_desc clo) + 80 <= Str.npos ->
  (String.length (full_desc clo) <= fuel)%nat ->
  exists os', CLO.print fuel clo os = Ok os'.
Proof.
  intros Ha Hword Hlen Hfuel. unfold CLO.print.
  destruct (m_isSeparator clo); [eauto|].
  destruct (wrap_loop_ends fuel (m_addSpace clo) (full_desc clo)
              ((os ++ Str.put_left (m_addSpace clo)
                        (m_arg clo ++ ", " ++ m_argAlt clo))
               ++ Str.put_left spaceArgDesc "") Ha Hword Hlen Hfuel)
    as (last & os' & ->).
  cbn. eauto.
Qed.

Lemma windows_ok_suffix (n : nat) (pre s : string) :
  windows_ok n (pre ++ s) = true -> windows_ok n s = true.
Proof.
  induction pre as [|a pre IH]; [trivial|]. cbn [append windows_ok].
  intros H. apply andb_true_iff in H as [_ H]. now apply IH.
Qed.

Lemma blank_within_contains (n : nat) (wd post : string) :
  String.length wd = n ->
  blank_within n (wd ++ post) = true ->
  (0 < n)%nat ->
  contains " " wd = true.
Proof.
  revert wd. induction n as [|n IH]; intros wd Hl Hb Hn; [lia|].
  destruct wd as [|a wd]; [discriminate|]. cbn in Hl, Hb |- *.
  destruct (Ascii.eqb a " "); [reflexivity|]. cbn in Hb |- *.
  destruct n as [|n'].
  - destruct wd; [|discriminate]. cbn in Hb. discriminate.
  - apply IH; [lia | exact Hb | lia].
Qed.

Lemma windows_ok_no_long_word (b : nat) (s : string) :
  windows_ok (S b) s = true -> no_long_word b s.
Proof.
  intros H pre wd post -> Hwd.
  apply windows_ok_suffix in H.
  destruct (wd ++ post) as [|a r] eqn:E.
  - destruct wd; discriminate.
  - rewrite <- E in H. unfold windows_ok in H.
    destruct (wd ++ post) as [|a' r'] eqn:E'; [discriminate|].
    rewrite <- E' in H. apply andb_true_iff in H as [H _].
    apply (blank_within_contains (S b) wd post Hwd H). lia.
Qed.

Lemma X10_print_ends_witness :
  let o := setSpaceAdd 60
             (CLO_plain "-o" "--out" "the file that all the output goes to"
                        HasValue_Yes Required_Yes) in
  exists os', CLO.print 48 o "" = Ok os'.
Proof.
  intros o. apply X10_print_ends.
  - cbn. lia.
  - apply windows_ok_no_long_word. reflexivity.
  - vm_compute. discriminate.
  - vm_compute. lia.
Defined.

(** X11: [operator<<] never leaves a [std::out_of_range] behind, whatever
    the description and the column width; and an entry whose rendering
    has not ended after as many turns of the loop as its description has
    characters never ends. *)
Theorem X11_print_no_throw (fuel : nat) (clo : CommandLineOption) (os : string) :
  Str.len (full_desc clo) <= Str.npos ->
  CLO.print fuel clo os <> Raised /\
  ((String.length (full_desc clo) < fuel)%nat ->
   CLO.print fuel clo os = OutOfFuel ->
   forall fuel' os', CLO.print fuel' clo os' = OutOfFuel).
Proof.
  intros Hlen. unfold CLO.print. destruct (m_isSeparator clo).
  - split; [discriminate|]. intros _ H. discriminate.
  - split.
    + pose proof (wrap_loop_no_raise fuel (m_addSpace clo) (full_desc clo)
        ((os ++ Str.put_left (m_addSpace clo) (m_arg clo ++ ", " ++ m_argAlt clo))
         ++ Str.put_left spaceArgDesc "") Hlen) as Hn.
      destruct (wrap_loop fuel (m_addSpace clo) (full_desc clo) _)
        as [[d o1]| | | |]; cbn; congruence.
    + intros Hfuel H fuel' os'.
      destruct (wrap_loop fuel (m_addSpace clo) (full_desc clo) _)
        as [[d o1]| | | |] eqn:E; cbn in H; try discriminate.
      now rewrite (wrap_loop_ends_or_never fuel (m_addSpace clo) (full_desc clo)
                     _ Hlen Hfuel E fuel').
Qed.

Lemma X11_print_no_throw_witness :
  CLO.print 96 url_option "" <> Raised /\
  forall fuel' os', CLO.print fuel' url_option os' = OutOfFuel.
Proof.
  destruct (X11_print_no_throw 96 url_option "") as [Hn Hnever].
  - vm_compute. discriminate.
  - split; [exact Hn|]. apply Hnever; [vm_compute; lia | reflexivity].
Defined.

(** ** Splitting what was joined *)

Lemma until_at (c : ascii) (x r : string) :
  contains c x = false -> Str.until c (x ++ String c r) = (x, r).
Proof.
  induction x as [|a x IH]; cbn.
  - intros _. now rewrite Ascii.eqb_refl.
  - intros H. apply orb_false_iff in H as [Ha Hx]. rewrite Ha.
    now rewrite (IH Hx).
Qed.

Lemma until_absent (c : ascii) (x : string) :
  contains c x = false -> Str.until c x = (x, "").
Proof.
  induction x as [|a x IH]; cbn; [reflexivity|].
  intros H. apply orb_false_iff in H as [Ha Hx]. rewrite Ha.
  now rewrite (IH Hx).
Qed.

Lemma getline_loop_nonempty (c : ascii) (s : string) :
  s <> "" ->
  getline_loop c s []
  = fst (Str.until c s) :: getline_loop c (snd (Str.until c s)) [].
Proof.
  destruct s as [|a s]; [congruence|]. intros _. apply splitString_cons.
Qed.

(** X12: [splitString] undoes a join.  Items that do not hold the
    delimiter character, the last of them not empty, joined by that
    character and split again (with any delimiter string that starts
    with it) are the same items. *)
Theorem X12_split_join (c : ascii) (d : string) (items : list string) :
  Forall (fun it => contains c it = false) items ->
  items = [] \/ last items "" <> "" ->
  splitString (join c items) (String c d) = items.
Proof.
  rewrite splitString_char. change (delim_char (String c d)) with c.
  induction items as [|x rest IH]; intros Hall Hlast.
  - cbn. now rewrite getline_loop_unfold.
  - inversion Hall as [|? ? Hx Hrest]; subst.
    destruct rest as [|y ys].
    + cbn [join]. destruct Hlast as [|Hlast]; [discriminate|]. cbn in Hlast.
      rewrite (getline_loop_nonempty c x Hlast), (until_absent c x Hx).
      cbn [fst snd]. now rewrite getline_loop_unfold.
    + change (join c (x :: y :: ys)) with (x ++ String c (join c (y :: ys))).
      rewrite getline_loop_nonempty by (destruct x; discriminate).
      rewrite (until_at c x _ Hx). cbn [fst snd]. f_equal.
      apply IH; [exact Hrest|]. right.
      destruct Hlast as [|Hlast]; [discriminate | exact Hlast].
Qed.

Lemma X12_split_join_witness :
  splitString (join ";" ["a"; ""; "b c"]) ";|" = ["a"; ""; "b c"].
Proof.
  apply X12_split_join.
  - repeat constructor.
  - right. discriminate.
Defined.

(** ** Registering and looking up *)

Lemma find_option_app (opts : list CommandLineOption)
    (o q : CommandLineOption) :
  find_option (opts ++ [o]) q
  = match find_option opts q with
    | Some r => Some r
    | None => if CLO_eqb o q then Some o else None
    end.
Proof.
  unfold find_option. induction opts as [|x opts IH]; cbn; [reflexivity|].
  destruct (CLO_eqb x q); [reflexivity | exact IH].
Qed.

(** X13: what [addOption] does to the queries.  An option with a
    declaration that is not registered yet is found by its declaration
    from then on, with its own [isSet] and [getValue]; an option with a
    declaration that is registered already is never found (the earlier
    one answers); and the answers for every other declaration are as
    they were. *)
Theorem X13_addOption_lookup (p : CommandLineParser)
    (o q : CommandLineOption) (delim : string) :
  m_options (addOption o p) = (m_options p ++ [o])%list /\
  ((forall r, In r (m_options p) -> ~ same_decl r o) ->
   Parser.isSet (addOption o p) o = CLO.isSet o /\
   Parser.getValue (addOption o p) o = CLO.getValue o /\
   getValueList (addOption o p) o delim = splitString (CLO.getValue o) delim) /\
  ((~ same_decl o q \/ exists r, In r (m_options p) /\ same_decl r q) ->
   Parser.isSet (addOption o p) q = Parser.isSet p q /\
   Parser.getValue (addOption o p) q = Parser.getValue p q /\
   getValueList (addOption o p) q delim = getValueList p q delim).
Proof.
  split; [reflexivity|].
  unfold Parser.isSet, Parser.getValue, getValueList, addOption.
  cbn [m_options with_options]. split.
  - intros Hnew. rewrite find_option_app, (find_option_miss _ o Hnew).
    assert (He : CLO_eqb o o = true) by (apply CLO_eqb_iff; repeat split).
    rewrite He. repeat split.
  - intros H. rewrite find_option_app.
    destruct (find_option (m_options p) q) as [r|] eqn:E; [repeat split|].
    destruct H as [Hn | (r & Hin & Hr)].
    + apply CLO_eqb_false_iff in Hn. rewrite Hn. repeat split.
    + exfalso. apply CLO_eqb_iff in Hr.
      pose proof (find_none _ _ E r Hin) as Hc. cbn in Hc. congruence.
Qed.

Lemma X13_addOption_lookup_witness :
  let a := CLO_default "-o" "--out" "Output" "a.out" Required_No in
  let b := CLO_plain "-o" "--out" "Output" HasValue_Yes Required_No in
  let p := addOption a (create 1 ["prog"] "" "") in
  Parser.getValue p a = "a.out" /\
  Parser.getValue (addOption b p) b = "a.out".
Proof.
  intros a b p.
  destruct (X13_addOption_lookup (create 1 ["prog"] "" "") a a ",")
    as (_ & Hnew & _).
  destruct (Hnew ltac:(intros r [])) as (_ & Hv & _).
  destruct (X13_addOption_lookup p b b ",") as (_ & _ & Hold).
  destruct Hold as (_ & Hv' & _).
  { right. exists a. split; [now left | repeat split]. }
  split; [exact Hv|]. rewrite Hv'. exact Hv.
Defined.

(** X14: [operator==] is an equivalence on options, and no member
    function moves an option out of its class: after [check],
    [setValue], [setRequired], [setDefault] and [setSpaceAdd] the option
    still equals what it was, so a registered option is found by the same
    declaration whatever was done to it. *)
Theorem X14_equality_kept :
  (forall a, CLO_eqb a a = true) /\
  (forall a b, CLO_eqb a b = CLO_eqb b a) /\
  (forall a b c, CLO_eqb a b = true -> CLO_eqb b c = true -> CLO_eqb a c = true) /\
  (forall o tok value required defaultValue spaceAdd,
     CLO_eqb (snd (check tok o)) o = true /\
     CLO_eqb (setValue value o) o = true /\
     CLO_eqb (setRequired required o) o = true /\
     CLO_eqb (setDefault defaultValue o) o = true /\
     CLO_eqb (setSpaceAdd spaceAdd o) o = true) /\
  (forall opts q f,
     (forall o, CLO_eqb (f o) o = true) ->
     find_option (map f opts) q = option_map f (find_option opts q)).
Proof.
  assert (Hrefl : forall a, CLO_eqb a a = true)
    by (intros a; apply CLO_eqb_iff; repeat split).
  split; [exact Hrefl|]. split; [|split; [|split]].
  - intros a b. unfold CLO_eqb.
    now rewrite (String.eqb_sym (m_arg a)), (String.eqb_sym (m_argAlt a)),
      (String.eqb_sym (m_desc a)).
  - intros a b c Hab Hbc. apply CLO_eqb_iff in Hab, Hbc. apply CLO_eqb_iff.
    eapply same_decl_trans; eauto.
  - intros o tok value required defaultValue spaceAdd.
    rewrite check_eq. cbn [snd].
    destruct (matches tok o); repeat split; apply CLO_eqb_iff; repeat split.
  - intros opts q f Hf. unfold find_option.
    induction opts as [|x opts IH]; cbn; [reflexivity|].
    assert (He : CLO_eqb (f x) q = CLO_eqb x q).
    { specialize (Hf x). apply CLO_eqb_iff in Hf.
      destruct Hf as (H1 & H2 & H3). unfold CLO_eqb. now rewrite H1, H2, H3. }
    rewrite He. destruct (CLO_eqb x q); [reflexivity | exact IH].
Qed.

(** ** A token that one option accepts *)

(** X15: the usual turn of the outer loop.  When one option only accepts
    the token at [i], the inner loop marks it set and reports a match,
    and leaves every other option as it is; if the option takes a value
    and a token follows, that token is stored as the value without being
    offered to any option (so it may itself be a declared flag), and the
    outer loop goes on two tokens further. *)
Theorem X15_sole_accept (p : CommandLineParser) (w : World) (str : string)
    (pre post : list CommandLineOption) (o : CommandLineOption)
    (i : Z) (any : bool) :
  (forall x, In x pre \/ In x post -> fst (check str x) = false) ->
  fst (check str o) = true ->
  (hasValue o = false ->
   scan_options p w str (pre ++ o :: post) i any
   = Ok ((pre ++ with_set true o :: post)%list, (i, true))) /\
  (hasValue o = true ->
   forall v, i + 1 < m_argc p -> argv_at p (i + 1) = Some v ->
   scan_options p w str (pre ++ o :: post) i any
   = Ok ((pre ++ setValue v (with_set true o) :: post)%list, (i + 1, true)) /\
   forall f, i < m_argc p -> argv_at p i = Some str ->
             scan_args p w (S f) (pre ++ o :: post) i any
             = scan_args p w f
                 (pre ++ setValue v (with_set true o) :: post) (i + 2) true).
Proof.
  intros Hothers Hc.
  assert (Hm : matches str o = true) by now rewrite <- check_fst.
  assert (Hpost : forall k a,
            scan_options p w str post k a = Ok (post, (k, a))).
  { intros k a. apply scan_options_refused. intros x Hx. apply Hothers. now right. }
  assert (Hflag : hasValue o = false -> forall a,
            scan_options p w str (pre ++ o :: post) i a
            = Ok ((pre ++ with_set true o :: post)%list, (i, true))).
  { intros Hv. clear Hc. induction pre as [|x pre IH]; intros a; cbn [app scan_options].
    - rewrite check_eq, Hm, hasValue_with_set, Hv, Hpost. reflexivity.
    - pose proof (Hothers x (or_introl (or_introl eq_refl))) as Hx.
      rewrite check_fst in Hx. rewrite check_eq, Hx, IH; [reflexivity|].
      intros y [Hy | Hy]; apply Hothers; [left; now right | now right]. }
  assert (Hval : hasValue o = true -> forall v, i + 1 < m_argc p ->
            argv_at p (i + 1) = Some v -> forall a,
            scan_options p w str (pre ++ o :: post) i a
            = Ok ((pre ++ setValue v (with_set true o) :: post)%list, (i + 1, true))).
  { intros Hv v Hlt Ha. clear Hc Hflag.
    induction pre as [|x pre IH]; intros a; cbn [app scan_options].
    - rewrite check_eq, Hm, hasValue_with_set, Hv.
      destruct (Z.geb_spec (i + 1) (m_argc p)); [lia|].
      rewrite Ha, Hpost. reflexivity.
    - pose proof (Hothers x (or_introl (or_introl eq_refl))) as Hx.
      rewrite check_fst in Hx. rewrite check_eq, Hx, IH; [reflexivity|].
      intros y [Hy | Hy]; apply Hothers; [left; now right | now right]. }
  split; [intros Hv; now apply Hflag|].
  intros Hv v Hlt Ha. split; [now apply Hval|].
  intros f Hi Es.
  rewrite (scan_args_step p w f _ i any str Hi Es).
  rewrite (Hval Hv v Hlt Ha any). cbn [bind].
  now replace (i + 1 + 1) with (i + 2) by lia.
Qed.

Lemma X15_sole_accept_witness :
  let f := CLO_plain "-f" "--file" "Input file" HasValue_Yes Required_No in
  let g := CLO_plain "-g" "--gain" "Gain" HasValue_Yes Required_No in
  let p := addOption g (addOption f (create 3 ["prog"; "-f"; "-g"] "" "")) in
  scan_options p (mkWorld "" "") "-f" [f; g] 1 false
  = Ok ([setValue "-g" (with_set true f); g], (2, true)).
Proof.
  intros f g p.
  destruct (X15_sole_accept p (mkWorld "" "") "-f" [] [g] f 1 false)
    as [_ H].
  - intros x [[] | [<- | []]]. reflexivity.
  - reflexivity.
  - destruct (H eq_refl "-g" eq_refl eq_refl) as [Hs _]. exact Hs.
Defined.

(** ** What [anyMatch] says *)

Lemma scan_args_any_false (p : CommandLineParser) (w : World) (f : nat)
    opts i any optsF :
  scan_args p w f opts i any = Ok (optsF, false) ->
  any = false /\ optsF = opts.
Proof.
  revert opts i any. induction f as [|f IH]; intros opts i any H;
    cbn in H; destruct (i <? m_argc p); try discriminate;
    try (injection H as <- <-; now split).
  destruct (argv_at p i) as [str|]; [|discriminate].
  destruct (scan_options p w str opts i any)
    as [[opts' [i' any']]| | | |] eqn:Es; cbn in H; try discriminate.
  destruct (IH _ _ _ H) as [Ha ->].
  pose proof (scan_options_ok p w _ _ _ _ _ _ _ Es) as (_ & _ & Hany).
  rewrite Ha in Hany. symmetry in Hany.
  apply orb_false_iff in Hany as [-> Hex]. split; [reflexivity|].
  assert (Hr : forall o, In o opts -> fst (check str o) = false).
  { intros o Hin. destruct (fst (check str o)) eqn:E; [|reflexivity].
    assert (existsb (fun o => fst (check str o)) opts = true)
      by (apply existsb_exists; eauto).
    congruence. }
  rewrite (scan_options_refused p w str opts i false Hr) in Es.
  now injection Es as <- _ _.
Qed.

(** X16: what the flag [anyMatch] of a completed scan says.  When it is
    false the scan has changed no option at all; when it is true some
    option is set; so, for options that were all unset before the scan,
    it is true exactly when the scan has matched one of them. *)
Theorem X16_any_match (p : CommandLineParser) (w : World)
    (optsF : list CommandLineOption) (anyF : bool) :
  scan p w = Ok (optsF, anyF) ->
  (anyF = false -> optsF = m_options p) /\
  (anyF = true -> exists o, In o optsF /\ m_set o = true) /\
  ((forall o, In o (m_options p) -> m_set o = false) ->
   (anyF = true <-> exists o, In o optsF /\ m_set o = true)).
Proof.
  intros Hs. unfold scan in Hs.
  assert (H1 : anyF = false -> optsF = m_options p).
  { intros ->. now apply scan_args_any_false in Hs. }
  assert (H2 : anyF = true -> exists o, In o optsF /\ m_set o = true).
  { intros Ha.
    destruct (scan_args_any _ _ _ _ _ _ _ _ Hs Ha) as [? | (j & o & Hj & Ho)];
      [discriminate|].
    exists o. split; [eapply nth_error_In; eauto | exact Ho]. }
  split; [exact H1|]. split; [exact H2|].
  intros Hfresh. split; [exact H2|].
  intros (o & Hin & Ho). destruct anyF; [reflexivity|].
  rewrite (H1 eq_refl) in Hin. rewrite (Hfresh o Hin) in Ho. discriminate.
Qed.

Lemma X16_any_match_witness :
  let f := CLO_plain "-f" "--file" "Input file" HasValue_Yes Required_No in
  let p := addOption f (create 3 ["prog"; "a"; "b"] "" "") in
  exists optsF, scan p (mkWorld "" "") = Ok (optsF, false) /\ optsF = [f].
Proof.
  intros f p.
  destruct (scan p (mkWorld "" "")) as [[optsF anyF]| | | |] eqn:E;
    try (vm_compute in E; discriminate E).
  destruct (X16_any_match p (mkWorld "" "") optsF anyF E) as (H & _).
  assert (Ha : anyF = false) by (vm_compute in E; now injection E as _ <-).
  subst anyF. exists optsF. split; [reflexivity | exact (H eq_refl)].
Defined.

(** ** The help screen *)

Lemma wrap_loop_pure (fuel : nat) (addSpace : Z) (desc os d os' : string) :
  wrap_loop fuel addSpace desc os = Ok (d, os') ->
  exists t, os' = os ++ t /\
            forall os2, wrap_loop fuel addSpace desc os2 = Ok (d, os2 ++ t).
Proof.
  revert desc os. induction fuel as [|fuel IH]; intros desc os H;
    cbn [wrap_loop] in H |- *;
    destruct (Str.size_wrap (Str.len desc + spaceArgDesc + addSpace)
              >? maxLineLen); try discriminate;
    try (injection H as <- <-; exists ""; split;
         [now rewrite append_empty_r | intros; now rewrite append_empty_r]).
  destruct (Str.substr desc 0 _) as [line|]; [|discriminate].
  destruct (Str.substr desc _ Str.npos) as [rest|]; [|discriminate].
  apply IH in H as (t & -> & Hp).
  eexists. split; [rewrite !append_assoc; reflexivity|].
  intros os2. rewrite Hp. now rewrite !append_assoc.
Qed.

Lemma print_pure (fuel : nat) (clo : CommandLineOption) (os os' : string) :
  CLO.print fuel clo os = Ok os' ->
  exists t, os' = os ++ t /\
            (forall os2, CLO.print fuel clo os2 = Ok (os2 ++ t)) /\
            (m_isSeparator clo = true -> t = Str.nl).
Proof.
  unfold CLO.print. destruct (m_isSeparator clo).
  - injection 1 as <-. exists Str.nl. repeat split.
  - destruct (wrap_loop fuel (m_addSpace clo) (full_desc clo) _)
      as [[d o1]| | | |] eqn:E; cbn; try discriminate.
    injection 1 as <-. apply wrap_loop_pure in E as (t & -> & Hp).
    eexists. split; [rewrite !append_assoc; reflexivity|].
    split; [|discriminate].
    intros os2. rewrite Hp. cbn. now rewrite !append_assoc.
Qed.

(** X17: when [printHelp] returns, the error stream is as it was and
    the output stream has got the usage line with the base name of the
    program, an empty line, and then one entry for each registered
    option, in their order, each the text that [operator<<] writes for
    that option with the shared column width; the entry of a separator
    is a line end alone. *)
Theorem X17_help_screen (basename : option string -> string) (fuel : nat)
    (p p' : CommandLineParser) (w w' : World) :
  printHelp basename fuel p w = Ok (p', w') ->
  exists m entries,
    m_options p' = map (setSpaceAdd m) (m_options p) /\
    cerr w' = cerr w /\
    cout w' = cout w ++ "Usage: " ++ basename (argv_at p 0) ++ " option"
              ++ Str.nl ++ Str.nl ++ lines entries /\
    Forall2 (fun o t =>
               (forall os, CLO.print fuel (setSpaceAdd m o) os = Ok (os ++ t)) /\
               (m_isSeparator o = true -> t = Str.nl))
            (m_options p) entries.
Proof.
  unfold printHelp, updateAddSpaces.
  destruct (max_element (m_options p)) as [mx|]; cbn [bind]; [|discriminate].
  set (m := getArgsLength mx).
  set (os0 := cout w ++ "Usage: " ++ basename (argv_at p 0) ++ " option"
              ++ Str.nl ++ Str.nl).
  destruct (print_options fuel (map (setSpaceAdd m) (m_options p)) os0)
    as [os1| | | |] eqn:E; cbn [bind]; try discriminate.
  injection 1 as <- <-. exists m.
  assert (G : forall opts os os',
            print_options fuel (map (setSpaceAdd m) opts) os = Ok os' ->
            exists entries,
              os' = os ++ lines entries /\
              Forall2 (fun o t =>
                 (forall os, CLO.print fuel (setSpaceAdd m o) os = Ok (os ++ t)) /\
                 (m_isSeparator o = true -> t = Str.nl)) opts entries).
  { induction opts as [|o opts IH]; intros os os'; cbn [map print_options].
    - injection 1 as <-. exists []. cbn. rewrite append_empty_r.
      split; [reflexivity | constructor].
    - destruct (CLO.print fuel (setSpaceAdd m o) os) as [o1| | | |] eqn:Ep;
        cbn [bind]; try discriminate.
      intros H. apply print_pure in Ep as (t & -> & Hp & Hsep).
      apply IH in H as (entries & -> & HF).
      exists (t :: entries). cbn [lines]. rewrite append_assoc.
      split; [reflexivity|]. constructor; [|exact HF]. split; assumption. }
  destruct (G _ _ _ E) as (entries & -> & HF).
  exists entries. cbn [m_options with_options cout cerr].
  split; [reflexivity|]. split; [reflexivity|]. split; [|exact HF].
  unfold os0. now rewrite !append_assoc.
Qed.

Lemma X17_help_screen_witness :
  let p := addSeparator (addHelpOption (create 1 ["prog"] "" "")) in
  exists p' w',
    printHelp (fun _ => "prog") 0 p (mkWorld "" "") = Ok (p', w') /\
    cout w' = "Usage: prog option" ++ Str.nl ++ Str.nl
              ++ "-h, --help    Displays Help" ++ Str.nl ++ Str.nl.
Proof.
  intros p.
  destruct (printHelp (fun _ => "prog") 0 p (mkWorld "" ""))
    as [[p' w']| | | |] eqn:E; try (vm_compute in E; discriminate E).
  destruct (X17_help_screen _ _ _ _ _ _ E) as (m & entries & _ & _ & _ & _).
  exists p', w'. split; [reflexivity|].
  vm_compute in E. now injection E as <- <-.
Defined.
